(** * Selection-bias meme pipeline: glyph mask generation and mask application

    A shallow embedding of [step4_create_block_letter.py] and
    [step5_create_masked.py].

    - Python floats are IEEE binary64 values ([PrimFloat.float]).  An array
      records its dtype and holds its cells as binary64 values: a float32 cell
      is embedded exactly, the float32 arithmetic is computed with [SpecFloat]
      at precision 24, and a comparison of a float32 array with a Python float
      first rounds the float to float32, as numpy does.
    - numpy arrays are objects on a heap: a function receives and returns
      references, [ndarray.copy] allocates, indexed assignment updates in place.
    - [print] appends to a log of structured lines.
    - Pillow and the file system are parameters of the glyph generator. *)

From Stdlib Require Import ZArith List String Ascii Floats Lia.
From Stdlib Require Strings.Byte.
From stdpp Require Import base option list gmap strings pretty.

Local Open Scope Z_scope.

(** ** Python exceptions, standard output, heap of arrays *)

Inductive exn :=
| ValueError (msg : string)
| OverflowError (msg : string)
| DanglingReference (l : positive).

(** The lines the two modules print, kept structured: the counts are the
    values interpolated in the source's f-strings. *)
Inductive line :=
| UsingFont (font_path : string)
| UsingDefaultFont
| CreatingWithPrimitives
| CreatedBlockLetter (letter : string) (height width : Z)
| AppliedMask
| MaskedAreas (pixels size : nat)
| RemainingStipples (count : nat).

(** The element types of the arrays the two modules handle: [np.float32]
    (what step 4 builds), [np.float64], and [np.bool_] (what a comparison
    gives). *)
Inductive np_type := float32 | float64 | bool_.

(** [ndarray]: the dtype, a shape tuple and the row-major buffer. *)
Record ndarray (A : Type) := NdArray { dtype : np_type; shape : list nat; data : list A }.
Arguments NdArray {A} _ _ _.
Arguments dtype {A} _.
Arguments shape {A} _.
Arguments data {A} _.

(** [a.size] *)
Definition size {A} (a : ndarray A) : nat := foldr Nat.mul 1%nat (shape a).

Definition well_formed {A} (a : ndarray A) : Prop := length (data a) = size a.

(** [a[r, c]] of a two-dimensional array. *)
Definition cell {A} (a : ndarray A) (r c : nat) : option A :=
  match shape a with
  | [h; w] => if decide (r < h ∧ c < w)%nat then data a !! (r * w + c)%nat else None
  | _ => None
  end.

Record world := World { heap : gmap positive (ndarray float); stdout : list line }.

Inductive outcome (A : Type) :=
| Returned (a : A)
| Raised (e : exn).
Arguments Returned {A} _.
Arguments Raised {A} _.

Definition py (A : Type) : Type := world → outcome A * world.

#[export] Instance py_ret : MRet py := λ A a σ, (Returned a, σ).
#[export] Instance py_bind : MBind py := λ A B k m σ,
  match m σ with
  | (Returned a, σ') => k a σ'
  | (Raised e, σ') => (Raised e, σ')
  end.

Definition raise {A} (e : exn) : py A := λ σ, (Raised e, σ).

Definition print (l : line) : py unit :=
  λ σ, (Returned (), World (heap σ) (stdout σ ++ [l])).

Definition load (l : positive) : py (ndarray float) :=
  λ σ, match heap σ !! l with
       | Some a => (Returned a, σ)
       | None => (Raised (DanglingReference l), σ)
       end.

(** A new array object: a reference no live object has. *)
Definition alloc (a : ndarray float) : py positive :=
  λ σ, let l := fresh (dom (heap σ)) in
       (Returned l, World (<[l := a]> (heap σ)) (stdout σ)).

Definition store (l : positive) (a : ndarray float) : py unit :=
  λ σ, (Returned (), World (<[l := a]> (heap σ)) (stdout σ)).

(** ** numpy operations used by the masker *)

(** [repr] of a shape tuple: [()], [(5,)], [(100, 50)]. *)
Fixpoint repr_items (s : list nat) : string :=
  match s with
  | [] => EmptyString
  | [n] => pretty n
  | n :: rest => pretty n +:+ ", " +:+ repr_items rest
  end.

Definition repr_shape (s : list nat) : string :=
  match s with
  | [n] => "(" +:+ pretty n +:+ ",)"
  | _ => "(" +:+ repr_items s +:+ ")"
  end.

(** [a.copy()]: same dtype and shape, a buffer of its own. *)
Definition ndarray_copy (a : ndarray float) : py positive :=
  alloc (NdArray (dtype a) (shape a) (data a)).

(** The float32 format. *)
Definition f32_prec : Z := 24.
Definition f32_emax : Z := 128.

(** [np.float64(r)] of a float32 value [r]: exact. *)
Definition float64_of_float32 (r : spec_float) : float :=
  match r with
  | S754_finite s m e => SF2Prim (binary_round prec emax s m e)
  | _ => SF2Prim r
  end.

(** [np.float32(x)] of a Python float: rounded to nearest, ties to even,
    what is too large to infinity; the float32 value is held as binary64. *)
Definition to_float32 (x : float) : float :=
  match Prim2SF x with
  | S754_finite s m e => float64_of_float32 (binary_round f32_prec f32_emax s m e)
  | _ => x
  end.

(** A Python float converted to the element type of an array. *)
Definition cast (t : np_type) (x : float) : float :=
  match t with
  | float32 => to_float32 x
  | _ => x
  end.

(** [a < x] against a Python float.  numpy compares in the dtype of the
    array: the scalar is converted to it, so a float32 array is compared
    with [np.float32(x)], not with [x].  The cells are read in the dtype too;
    a float32 cell is a float32 value, which the conversion leaves as it is. *)
Definition less (a : ndarray float) (x : float) : ndarray bool :=
  NdArray bool_ (shape a) ((λ v, cast (dtype a) v <? cast (dtype a) x)%float <$> data a).

(** [a == x] against a scalar. *)
Definition equal (a : ndarray float) (x : float) : ndarray bool :=
  NdArray bool_ (shape a) ((λ v, v =? x)%float <$> data a).

(** [np.sum] of a boolean array. *)
Definition np_sum (b : ndarray bool) : nat := length (filter (λ x, x = true) (data b)).

(** [a[b] = x] with a boolean index array [b]: the buffer of [a] is updated
    where [b] holds. *)
Definition setitem_where (a : ndarray float) (b : ndarray bool) (x : float)
  : ndarray float :=
  NdArray (dtype a) (shape a)
          (imap (λ i v, if default false (data b !! i) then x else v) (data a)).

(** ** step5_create_masked.py *)

(** The f-string of the [ValueError] (line 36). *)
Definition shape_mismatch_message (stipple mask : list nat) : string :=
  "Image shapes don't match: stipple " +:+ repr_shape stipple
    +:+ ", mask " +:+ repr_shape mask.

(** [create_masked_stipple] (lines 9-53): the shape test, the copy, the
    comparison with the threshold, the assignment of 1.0 under the boolean
    index, the three printed lines. *)
Definition create_masked_stipple (stipple_img mask_img : positive) (threshold : float)
  : py positive :=
  stipple ← load stipple_img;
  mask ← load mask_img;
  if bool_decide (shape stipple ≠ shape mask) then
    raise (ValueError (shape_mismatch_message (shape stipple) (shape mask)))
  else
    masked_stipple ← ndarray_copy stipple;
    mask ← load mask_img;
    let mask_areas := less mask threshold in
    target ← load masked_stipple;
    store masked_stipple (setitem_where target mask_areas 1%float);;
    print AppliedMask;;
    print (MaskedAreas (np_sum mask_areas) (size mask_areas));;
    result ← load masked_stipple;
    print (RemainingStipples (np_sum (equal result 0%float)));;
    mret masked_stipple.

(** ** Python numbers *)

(** A value that is an [int] or a [float] at run time. *)
Inductive pynum :=
| PyInt (n : Z)
| PyFloat (x : float).

(** [float(n)]: correctly rounded, [OverflowError] beyond the float range. *)
Definition float_of_int (n : Z) : exn + float :=
  match binary_normalize prec emax n 0 false with
  | S754_infinity _ => inl (OverflowError "int too large to convert to float")
  | x => inr (SF2Prim x)
  end.

(** [int(x)]: truncation toward zero. *)
Definition int_of_float (x : float) : exn + Z :=
  match Prim2SF x with
  | S754_nan => inl (ValueError "cannot convert float NaN to integer")
  | S754_infinity _ => inl (OverflowError "cannot convert float infinity to integer")
  | S754_zero _ => inr 0
  | S754_finite s m e => inr (cond_Zopp s (Z.shiftl (Z.pos m) e))
  end.

(** [math.floor] of [x / 2], kept a float: the value of [x // 2]. *)
Definition float_floordiv2 (x : float) : float :=
  match Prim2SF x with
  | S754_finite s m e =>
      if 1 <=? e then (x / 2)%float
      else SF2Prim (binary_normalize prec emax (Z.shiftl (cond_Zopp s (Z.pos m)) (e - 1)) 0 s)
  | S754_zero _ => x
  | _ => nan
  end.

Definition lift {A} (r : exn + A) : py A :=
  match r with
  | inl e => raise e
  | inr a => mret a
  end.

(** [n * x] for an int [n] and a float [x]. *)
Definition mul_int_float (n : Z) (x : float) : py float :=
  a ← lift (float_of_int n); mret (a * x)%float.

(** [a - b] *)
Definition py_sub (a b : pynum) : py pynum :=
  match a, b with
  | PyInt m, PyInt n => mret (PyInt (m - n))
  | PyInt m, PyFloat y => x ← lift (float_of_int m); mret (PyFloat (x - y))
  | PyFloat x, PyInt n => y ← lift (float_of_int n); mret (PyFloat (x - y))
  | PyFloat x, PyFloat y => mret (PyFloat (x - y))
  end.

(** [a + b] *)
Definition py_add (a b : pynum) : py pynum :=
  match a, b with
  | PyInt m, PyInt n => mret (PyInt (m + n))
  | PyInt m, PyFloat y => x ← lift (float_of_int m); mret (PyFloat (x + y))
  | PyFloat x, PyInt n => y ← lift (float_of_int n); mret (PyFloat (x + y))
  | PyFloat x, PyFloat y => mret (PyFloat (x + y))
  end.

(** [a // 2] *)
Definition py_floordiv2 (a : pynum) : pynum :=
  match a with
  | PyInt n => PyInt (n / 2)
  | PyFloat x => PyFloat (float_floordiv2 x)
  end.

(** [try: body except: handler] *)
Definition try_except {A} (body handler : py A) : py A :=
  λ σ, match body σ with
       | (Raised _, σ') => handler σ'
       | r => r
       end.

(** [s.upper()] on ASCII letters. *)
Definition upper_ascii (c : ascii) : ascii :=
  let n := nat_of_ascii c in
  if ((97 <=? n) && (n <=? 122))%nat then ascii_of_nat (n - 32) else c.

Fixpoint upper (s : string) : string :=
  match s with
  | EmptyString => EmptyString
  | String c rest => String (upper_ascii c) (upper rest)
  end.

(** [s.endswith(suffix)] *)
Definition endswith (s suffix : string) : bool :=
  let n := String.length s in
  let k := String.length suffix in
  if (k <=? n)%nat then String.eqb (substring (n - k) k s) suffix else false.

(** ** Pillow *)

(** An image of mode ['L']: one byte per pixel, rows of [im_width] pixels. *)
Record image := Image { im_width : nat; im_height : nat; im_pixels : list Byte.byte }.

(** [Image.new('L', (width, height), color)] *)
Definition Image_new (width height : Z) (color : Byte.byte) : py image :=
  if (width <? 0) || (height <? 0) then
    raise (ValueError "Width and height must be >= 0")
  else
    mret (Image (Z.to_nat width) (Z.to_nat height)
                (replicate (Z.to_nat height * Z.to_nat width) color)).

(** What the source takes from Pillow and from the file system.  The calls
    the source wraps in [try] may raise ([None]); the drawing calls give, for
    each pixel of the buffer, its value after the call. *)
Record pillow := Pillow {
  font : Type;
  path_exists : string → bool;
  truetype : string → Z → option Z → option font;
  load_default : option font;
  textbbox : font → string → option (pynum * pynum * pynum * pynum);
  text_pixel : pynum * pynum → string → Byte.byte → font → image → nat → Byte.byte;
  ellipse_pixel : pynum * pynum * pynum * pynum → Byte.byte → Byte.byte → Z → image → nat → Byte.byte
}.

(** A drawing call writes into the image's buffer; the extent is fixed. *)
Definition redraw (img : image) (pixel : image → nat → Byte.byte) : image :=
  Image (im_width img) (im_height img) (imap (λ i _, pixel img i) (im_pixels img)).

(** [np.array(img, dtype=np.float32) / 255.0], one cell: the float32 quotient. *)
Definition float32_of_byte (b : Byte.byte) : spec_float :=
  binary_normalize f32_prec f32_emax (Z.of_N (Byte.to_N b)) 0 false.

Definition unit_of_byte (b : Byte.byte) : float :=
  SF2Prim (SFdiv f32_prec f32_emax (float32_of_byte b) (float32_of_byte Byte.xff)).

Definition array_of_image (img : image) : ndarray float :=
  NdArray float32 [im_height img; im_width img] (unit_of_byte <$> im_pixels img).

(** ** step4_create_block_letter.py *)

Definition font_paths : list string :=
  [ "/System/Library/Fonts/Helvetica.ttc";
    "/System/Library/Fonts/Arial.ttf";
    "/usr/share/fonts/truetype/dejavu/DejaVuSans-Bold.ttf";
    "C:/Windows/Fonts/arialbd.ttf";
    "C:/Windows/Fonts/arial.ttf" ].

(** [font_size = int(height * font_size_ratio)] (line 42) *)
Definition font_size_of (height : Z) (font_size_ratio : float) : py Z :=
  scaled ← mul_int_float height font_size_ratio;
  lift (int_of_float scaled).

Section Glyph.
Context (P : pillow).

(** [_create_simple_block_letter] (lines 105-139): two ellipses when the
    upper-cased letter is "S", nothing otherwise. *)
Definition _create_simple_block_letter (height width : Z) (letter : string)
  : py positive :=
  img ← Image_new width height Byte.xff;
  let center_x := width / 2 in
  let center_y := height / 2 in
  letter_width ← mul_int_float width 0x1.3333333333333p-1;
  letter_height ← mul_int_float height 0x1.999999999999ap-1;
  img ← (if String.eqb (upper letter) "S" then
           let thickness := Z.max 5 (Z.min width height / 10) in
           x0 ← py_sub (PyInt center_x) (PyFloat (float_floordiv2 letter_width));
           y0 ← py_sub (PyInt center_y) (PyFloat (float_floordiv2 letter_height));
           x1 ← py_add (PyInt center_x) (PyFloat (float_floordiv2 letter_width));
           let img :=
             redraw img (ellipse_pixel P (x0, y0, x1, PyInt center_y)
                                       Byte.x00 Byte.xff thickness) in
           x0 ← py_sub (PyInt center_x) (PyFloat (float_floordiv2 letter_width));
           x1 ← py_add (PyInt center_x) (PyFloat (float_floordiv2 letter_width));
           y1 ← py_add (PyInt center_y) (PyFloat (float_floordiv2 letter_height));
           mret (redraw img (ellipse_pixel P (x0, PyInt center_y, x1, y1)
                                           Byte.x00 Byte.xff thickness))
         else mret img);
  alloc (array_of_image img).

(** The loop over [font_paths] (lines 54-66): the first path that exists and
    loads; a path whose [truetype] raises is skipped. *)
Fixpoint find_font (paths : list string) (font_size : Z) : option (string * font P) :=
  match paths with
  | [] => None
  | font_path :: rest =>
      if path_exists P font_path then
        match truetype P font_path font_size
                (if endswith font_path ".ttc" then Some 0 else None) with
        | Some f => Some (font_path, f)
        | None => find_font rest font_size
        end
      else find_font rest font_size
  end.

(** The size of the text (lines 79-87): from [textbbox], and from the estimate
    when anything in the [try] block raises. *)
Definition text_extent (height width : Z) (letter : string) (f : font P)
  : py (pynum * pynum) :=
  try_except
    (match textbbox P f letter with
     | Some (x_min, y_min, x_max, y_max) =>
         text_width ← py_sub x_max x_min;
         text_height ← py_sub y_max y_min;
         mret (text_width, text_height)
     | None => raise (ValueError "textbbox raised")
     end)
    (text_width ← mul_int_float width 0x1.3333333333333p-1;
     text_height ← mul_int_float height 0x1.999999999999ap-1;
     mret (PyFloat text_width, PyFloat text_height)).

(** Lines 78-102, once a font is at hand: centre, draw, convert. *)
Definition draw_letter (img : image) (height width : Z) (letter : string) (f : font P)
  : py positive :=
  '(text_width, text_height) ← text_extent height width letter f;
  dx ← py_sub (PyInt width) text_width;
  let x := py_floordiv2 dx in
  dy ← py_sub (PyInt height) text_height;
  let y := py_floordiv2 dy in
  let img := redraw img (text_pixel P (x, y) letter Byte.x00 f) in
  letter_array ← alloc (array_of_image img);
  print (CreatedBlockLetter letter height width);;
  mret letter_array.

(** [create_block_letter_s] (lines 11-102). *)
Definition create_block_letter_s (height width : Z) (letter : string)
    (font_size_ratio : float) : py positive :=
  img ← Image_new width height Byte.xff;
  font_size ← font_size_of height font_size_ratio;
  match find_font font_paths font_size with
  | Some (font_path, f) =>
      print (UsingFont font_path);;
      draw_letter img height width letter f
  | None =>
      match load_default P with
      | Some f =>
          print UsingDefaultFont;;
          draw_letter img height width letter f
      | None =>
          print CreatingWithPrimitives;;
          _create_simple_block_letter height width letter
      end
  end.
End Glyph.

(** Default arguments of the two entry points. *)
Definition default_letter : string := "S".
Definition default_font_size_ratio : float := 0x1.ccccccccccccdp-1.
Definition default_threshold : float := 0.5.

(** ** The glyph size as the specification words it *)

(** [round(x)]: the nearest integer, a tie going to the even one. *)
Definition round_half_even (x : float) : exn + Z :=
  match Prim2SF x with
  | S754_nan => inl (ValueError "cannot convert float NaN to integer")
  | S754_infinity _ => inl (OverflowError "cannot convert float infinity to integer")
  | S754_zero _ => inr 0
  | S754_finite s m e =>
      if 0 <=? e then inr (cond_Zopp s (Z.pos m * 2 ^ e))
      else
        let q := Z.pos m / 2 ^ (- e) in
        let r := Z.pos m mod 2 ^ (- e) in
        let half := 2 ^ (- e - 1) in
        let up := (half <? r) || ((r =? half) && Z.odd q) in
        inr (cond_Zopp s (if up then q + 1 else q))
  end.

(** The nominal glyph size were it [round(height * sizeRatio)]. *)
Definition font_size_as_specified (height : Z) (font_size_ratio : float) : py Z :=
  scaled ← mul_int_float height font_size_ratio;
  lift (round_half_even scaled).

(** [z] is the exact value [(-1)^s * m * 2^e] of a finite float truncated
    toward zero: the sign is kept and [|z| <= m * 2^e < |z| + 1], written with
    the power of two cleared from the denominator. *)
Definition truncated (x : spec_float) (z : Z) : Prop :=
  match x with
  | S754_zero _ => z = 0
  | S754_finite s m e =>
      ∃ q, z = cond_Zopp s q ∧ 0 <= q ∧
           q * 2 ^ Z.max 0 (- e) <= Z.pos m * 2 ^ Z.max 0 e
             < (q + 1) * 2 ^ Z.max 0 (- e)
  | _ => False
  end.

(** What a run of [create_block_letter_s] prints, by the font it ends up with. *)
Definition glyph_report (P : pillow) (font_size : Z) (letter : string)
    (height width : Z) : list line :=
  match find_font P font_paths font_size with
  | Some (font_path, _) => [UsingFont font_path; CreatedBlockLetter letter height width]
  | None =>
      match load_default P with
      | Some _ => [UsingDefaultFont; CreatedBlockLetter letter height width]
      | None => [CreatingWithPrimitives]
      end
  end.

(** ** Sample states *)

(** A 2 x 2 stipple field and a mask with cells below, at and above 0.5,
    both of dtype float64. *)
Definition sample_stipple : ndarray float := NdArray float64 [2; 2]%nat [0; 0; 1; 0]%float.
Definition sample_mask : ndarray float := NdArray float64 [2; 2]%nat [0.25; 0.5; 0; 0.75]%float.

Definition sample_world : world :=
  World (<[2%positive := sample_mask]> (<[1%positive := sample_stipple]> ∅)) [].

(** A 2 x 3 mask: its shape differs from the stipple field's. *)
Definition wide_mask : ndarray float := NdArray float64 [2; 3]%nat [0; 0; 0; 1; 1; 1]%float.

Definition mismatched_world : world :=
  World (<[2%positive := wide_mask]> (<[1%positive := sample_stipple]> ∅)) [].

(** A stipple field holding 2.0 and -1.0, neither in [0, 1]. *)
Definition stray_stipple : ndarray float := NdArray float64 [1; 2]%nat [2; -1]%float.
Definition stray_mask : ndarray float := NdArray float64 [1; 2]%nat [1; 1]%float.

Definition stray_world : world :=
  World (<[2%positive := stray_mask]> (<[1%positive := stray_stipple]> ∅)) [].

(** An image extent Pillow can hold: positive and within a C [int]. *)
Definition valid_dimension (n : Z) : Prop := 0 < n < 2 ^ 31.

(** The number of cells of [a] equal to 0.0, as the masker reports it. *)
Definition stipple_count (a : ndarray float) : nat := np_sum (equal a 0%float).

(** A machine with no font file and no default font; an ellipse paints the
    top row of the canvas with its outline colour. *)
Definition bare_pillow : pillow :=
  Pillow unit
         (λ _, false)
         (λ _ _ _, None)
         None
         (λ _ _, None)
         (λ _ _ fill _ _ _, fill)
         (λ _ outline _ _ img i,
            if (i <? im_width img)%nat then outline
            else default Byte.xff (im_pixels img !! i)).

(** A machine with the DejaVu font file; text paints the top row of the
    canvas with its fill colour, an ellipse with its outline colour. *)
Definition dejavu_pillow : pillow :=
  Pillow unit
         (λ font_path,
            String.eqb font_path "/usr/share/fonts/truetype/dejavu/DejaVuSans-Bold.ttf")
         (λ _ font_size _, if 0 <? font_size then Some () else None)
         None
         (λ _ _, Some (PyInt 0, PyInt 0, PyInt 30, PyInt 33))
         (λ _ _ fill _ img i,
            if (i <? im_width img)%nat then fill
            else default Byte.xff (im_pixels img !! i))
         (λ _ outline _ _ img i,
            if (i <? im_width img)%nat then outline
            else default Byte.xff (im_pixels img !! i)).

(** A state holding one 50 x 50 stipple field, every cell a sample (0.0). *)
Definition full_stipple : ndarray float := NdArray float64 [50; 50]%nat (replicate 2500 0%float).

Definition full_world : world := World (<[1%positive := full_stipple]> ∅) [].

Definition empty_world : world := World ∅ [].

(** An image of the extent asked for, its buffer complete. *)
Definition canvas (height width : Z) (img : image) : Prop :=
  im_height img = Z.to_nat height ∧
  im_width img = Z.to_nat width ∧
  length (im_pixels img) = (Z.to_nat height * Z.to_nat width)%nat.

(** * Properties of the masker *)

(** The array [create_masked_stipple] leaves in the new object. *)
Definition masked (stipple mask : ndarray float) (threshold : float) : ndarray float :=
  setitem_where (NdArray (dtype stipple) (shape stipple) (data stipple))
                (less mask threshold) 1%float.

Definition masker_report (stipple mask : ndarray float) (threshold : float) : list line :=
  [ AppliedMask;
    MaskedAreas (np_sum (less mask threshold)) (size (less mask threshold));
    RemainingStipples (np_sum (equal (masked stipple mask threshold) 0%float)) ].

(** ** Definitions for further properties *)

(** The place of a float that is not NaN in the order of the reals: sign
    class first, then exponent, then mantissa. *)
Definition order_key (x : spec_float) : Z * Z * Z :=
  match x with
  | S754_infinity true => (-2, 0, 0)
  | S754_finite true m e => (-1, - e, - Z.pos m)
  | S754_zero _ => (0, 0, 0)
  | S754_nan => (0, 0, 0)
  | S754_finite false m e => (1, e, Z.pos m)
  | S754_infinity false => (2, 0, 0)
  end.

Definition key_lt (j k : Z * Z * Z) : Prop :=
  let '(a1, b1, c1) := j in
  let '(a2, b2, c2) := k in
  a1 < a2 ∨ (a1 = a2 ∧ (b1 < b2 ∨ (b1 = b2 ∧ c1 < c2))).

(** The samples the mask removes: the cells that hold 0.0 and that the
    comparison of the mask with the threshold selects. *)
Definition removed_count (stipple mask : ndarray float) (threshold : float) : nat :=
  length (filter (λ '(sv, below), ((sv =? 0)%float && below) = true)
                 (zip (data stipple) (data (less mask threshold)))).

(** [m / 2 ^ k] rounded to the nearest integer, ties to even. *)
Definition nearest_even (m k : Z) : Z :=
  let q := m / 2 ^ k in
  let rem := m mod 2 ^ k in
  let half := 2 ^ (k - 1) in
  if (half <? rem) || ((rem =? half) && Z.odd q) then q + 1 else q.

(** What [k] right shifts of [M] leave in a shift record of [SpecFloat]. *)
Definition shr_located (M k : Z) (mrs : shr_record) : Prop :=
  shr_m mrs = M / 2 ^ k ∧
  match shr_r mrs, shr_s mrs with
  | false, false => M mod 2 ^ k = 0
  | false, true => 0 < M mod 2 ^ k < 2 ^ (k - 1)
  | true, false => 0 < M mod 2 ^ k ∧ M mod 2 ^ k = 2 ^ (k - 1)
  | true, true => 2 ^ (k - 1) < M mod 2 ^ k
  end.

(** The value of a binary64 float in units of [2 ^ -1074], the infinities
    beyond every finite value. *)
Definition rank (x : spec_float) : Z :=
  match x with
  | S754_zero _ | S754_nan => 0
  | S754_infinity s => if s then - 2 ^ 3000 else 2 ^ 3000
  | S754_finite s m e =>
      if s then - (Z.pos m * 2 ^ (e + 1074)) else Z.pos m * 2 ^ (e + 1074)
  end.

(** The magnitude, in units of [2 ^ -1074], of a binary64 float rounded to
    float32: what reaches [2 ^ 128] overflows to infinity. *)
Definition float32_weight (m : positive) (e : Z) : Z :=
  let k := fexp f32_prec f32_emax (Z.pos (digits2_pos m) + e) - e in
  let w := nearest_even (Z.pos m) k * 2 ^ (e + k + 1074) in
  if w <? 2 ^ 1202 then w else 2 ^ 3000.

(** The rank of a binary64 float after rounding to float32. *)
Definition rounded_rank (x : spec_float) : Z :=
  match x with
  | S754_finite s m e => if s then - float32_weight m e else float32_weight m e
  | _ => rank x
  end.

(** A float32 mask whose first cell is [np.float32(0.7)], a value below the
    Python float 0.7, and whose second cell is [np.float32(0.6)]. *)
Definition gap_threshold : float := 0x1.6666666666666p-1.
Definition gap_stipple : ndarray float := NdArray float64 [1; 2]%nat [0; 0]%float.
Definition gap_mask : ndarray float :=
  NdArray float32 [1; 2]%nat [0x1.666666p-1; 0x1.333334p-1]%float.

Definition gap_world : world :=
  World (<[2%positive := gap_mask]> (<[1%positive := gap_stipple]> ∅)) [].


(** A state with a stipple field and two masks of its shape. *)
Definition second_mask : ndarray float := NdArray float64 [2; 2]%nat [1; 0; 0.5; 0]%float.

Definition two_mask_world : world :=
  World (<[3%positive := second_mask]>
           (<[2%positive := sample_mask]> (<[1%positive := sample_stipple]> ∅))) [].

(** A 1 x 2 canvas: a black pixel and a dark grey one. *)
Definition two_pixel_image : image := Image 2 1 [Byte.x00; Byte.x40].

(** * Python numbers: when the conversions are defined *)

Lemma digits2_pos_size (p : positive) : digits2_pos p = Pos.size p.
Proof. induction p; cbn; congruence. Qed.

Lemma digits2_pos_iter_xO (p k : positive) :
  digits2_pos (Pos.iter xO p k) = (digits2_pos p + k)%positive.
Proof.
  induction k using Pos.peano_ind.
  - cbn. lia.
  - rewrite Pos.iter_succ. cbn [digits2_pos]. rewrite IHk. lia.
Qed.

Lemma digits2_pos_bound (p : positive) (K : Z) :
  0 <= K → Z.pos p < 2 ^ K → Z.pos (digits2_pos p) <= K.
Proof.
  intros HK Hp. rewrite digits2_pos_size.
  pose proof (Pos.size_le p) as Hle.
  assert (2 ^ Z.pos (Pos.size p) <= 2 * Z.pos p) as Hz.
  { rewrite <- Pos2Z.inj_pow. change (2 * Z.pos p) with (Z.pos p~0). exact Hle. }
  destruct (Z_le_gt_dec (Z.pos (Pos.size p)) K) as [|Hgt]; [assumption|exfalso].
  assert (2 ^ (K + 1) <= 2 ^ Z.pos (Pos.size p)) by (apply Z.pow_le_mono_r; lia).
  rewrite Z.pow_add_r in * by lia. lia.
Qed.

Lemma digits2_pos_gt (p : positive) : Z.pos p < 2 ^ Z.pos (digits2_pos p).
Proof.
  rewrite digits2_pos_size, <- Pos2Z.inj_pow. apply Pos2Z.pos_lt_pos, Pos.size_gt.
Qed.

(** float(n) for 0 < n < 2^53: exact *)
Lemma binary_normalize_exact (p : positive) :
  Z.pos (digits2_pos p) < 53 →
  binary_normalize prec emax (Z.pos p) 0 false =
    S754_finite false (Pos.iter xO p (Z.to_pos (53 - Z.pos (digits2_pos p))))
                (Z.pos (digits2_pos p) - 53).
Proof.
  intros Hd.
  unfold binary_normalize, binary_round, shl_align. set (d := digits2_pos p) in *.
  assert (fexp prec emax (Z.pos d + 0) = Z.pos d - 53) as ->.
  { unfold fexp, SpecFloat.emin, prec, emax. lia. }
  destruct (Z.pos d - 53 - 0) as [|q|q] eqn:Hq; try lia.
  assert (q = Z.to_pos (53 - Z.pos d)) as -> by lia.
  unfold binary_round_aux, shr_fexp, Zdigits2.
  rewrite digits2_pos_iter_xO. fold d.
  assert (fexp prec emax (Z.pos (d + Z.to_pos (53 - Z.pos d)) + (Z.pos d - 53))
          = Z.pos d - 53) as ->.
  { unfold fexp, SpecFloat.emin, prec, emax. lia. }
  rewrite Z.sub_diag. cbn [shr shr_record_of_loc loc_of_shr_record shr_m round_nearest_even Zdigits2].
  rewrite digits2_pos_iter_xO. fold d.
  assert (fexp prec emax (Z.pos (d + Z.to_pos (53 - Z.pos d)) + (Z.pos d - 53))
          = Z.pos d - 53) as ->.
  { unfold fexp, SpecFloat.emin, prec, emax. lia. }
  rewrite Z.sub_diag. cbn [shr shr_m shr_record_of_loc].
  assert ((Z.pos d - 53 <=? emax - prec) = true) as ->.
  { apply Z.leb_le. unfold prec, emax. lia. }
  reflexivity.
Qed.

Lemma iter_pos_invariant {A} (f : A → A) (P : A → Prop) :
  (∀ x, P x → P (f x)) → ∀ n x, P x → P (SpecFloat.iter_pos f n x).
Proof.
  intros Hf n. induction n as [n IH|n IH|]; intros x Hx; cbn; auto.
Qed.

Lemma shr_1_bounds (M : Z) mrs :
  0 <= shr_m mrs <= M → 0 <= shr_m (shr_1 mrs) <= M.
Proof.
  destruct mrs as [m r s]. cbn [shr_m]. intros Hm.
  destruct m as [|[q|q|]|q]; cbn [shr_1 shr_m]; lia.
Qed.

Lemma shr_bounds (M : Z) mrs e n :
  0 <= shr_m mrs <= M →
  0 <= shr_m (fst (shr mrs e n)) <= M ∧
  snd (shr mrs e n) = (if 0 <? n then e + n else e).
Proof.
  intros Hm. destruct n as [|q|q]; cbn [shr fst snd]; try (split; [assumption|reflexivity]).
  split; [|reflexivity].
  apply (iter_pos_invariant SpecFloat.shr_1 (λ x, 0 <= shr_m x <= M)); [|assumption].
  intros x. apply shr_1_bounds.
Qed.

Lemma shr_record_of_loc_m m l : shr_m (shr_record_of_loc m l) = m.
Proof. destruct l as [|[]]; reflexivity. Qed.

Lemma round_nearest_even_bounds m l :
  m <= round_nearest_even m l <= m + 1.
Proof.
  destruct l as [|[]]; cbn; try lia. destruct (Z.even m); lia.
Qed.

Lemma Zdigits2_bound (m K : Z) : 0 <= K → 0 <= m < 2 ^ K → 0 <= Zdigits2 m <= K.
Proof.
  intros HK Hm. destruct m as [|p|p]; cbn; try lia.
  split; [lia|]. apply digits2_pos_bound; lia.
Qed.

(** Rounding a mantissa below [2 ^ K] at exponent [e] stays finite when
    [e + 2 K] is far from [emax]. *)
Lemma binary_round_aux_finite s (m : positive) e l (K : Z) :
  0 <= K <= 2000 →
  Z.pos m < 2 ^ K →
  e + 2 * K + 1 <= emax - prec →
  binary_round_aux prec emax s (Z.pos m) e l = S754_zero s ∨
  ∃ m' e', binary_round_aux prec emax s (Z.pos m) e l = S754_finite s m' e'.
Proof.
  intros HK Hm He. unfold binary_round_aux, shr_fexp.
  pose proof (Zdigits2_bound (Z.pos m) K ltac:(lia) ltac:(lia)) as Hd.
  set (n1 := fexp prec emax (Zdigits2 (Z.pos m) + e) - e).
  pose proof (shr_bounds (Z.pos m) (shr_record_of_loc (Z.pos m) l) e n1) as H1.
  rewrite shr_record_of_loc_m in H1. specialize (H1 ltac:(lia)).
  destruct (shr (shr_record_of_loc (Z.pos m) l) e n1) as [mrs1 e1].
  cbn [fst snd] in H1. destruct H1 as [Hm1 He1].
  pose proof (round_nearest_even_bounds (shr_m mrs1) (loc_of_shr_record mrs1)) as Hr.
  set (m2 := round_nearest_even (shr_m mrs1) (loc_of_shr_record mrs1)) in *.
  assert (0 <= m2 < 2 ^ (K + 1)) as Hm2.
  { rewrite Z.pow_add_r by lia. lia. }
  pose proof (Zdigits2_bound m2 (K + 1) ltac:(lia) Hm2) as Hd2.
  set (n2 := fexp prec emax (Zdigits2 m2 + e1) - e1).
  pose proof (shr_bounds m2 (shr_record_of_loc m2 loc_Exact) e1 n2) as H2.
  rewrite shr_record_of_loc_m in H2. specialize (H2 ltac:(lia)).
  destruct (shr (shr_record_of_loc m2 loc_Exact) e1 n2) as [mrs2 e2].
  cbn [fst snd] in H2. destruct H2 as [Hm3 He2].
  destruct (shr_m mrs2) as [|q|q]; [left; reflexivity| |lia].
  right.
  assert ((e2 <=? emax - prec) = true) as ->; [|eauto].
  apply Z.leb_le. subst e2 e1 n1 n2.
  unfold fexp, SpecFloat.emin, prec, emax in *.
  repeat match goal with
         | |- context [0 <? ?x] => destruct (Z.ltb_spec 0 x)
         end; lia.
Qed.

(** [float(n)] is exact for a natural number below [2 ^ K], [K <= 52]. *)
Lemma float_of_int_small (n K : Z) :
  0 <= K <= 52 → 0 <= n < 2 ^ K →
  ∃ x, float_of_int n = inr x ∧
       (Prim2SF x = S754_zero false ∨
        ∃ m e, Prim2SF x = S754_finite false m e ∧ Z.pos m < 2 ^ 53 ∧ e <= K - 53).
Proof.
  intros HK Hn. unfold float_of_int. destruct n as [|p|p]; [| |lia].
  - eexists. split; [reflexivity|]. left. reflexivity.
  - pose proof (digits2_pos_bound p K ltac:(lia) ltac:(lia)) as Hd.
    rewrite binary_normalize_exact by lia.
    set (d := digits2_pos p) in *.
    set (m := Pos.iter xO p (Z.to_pos (53 - Z.pos d))).
    assert (Z.pos (digits2_pos m) = 53) as Hdm.
    { unfold m. rewrite digits2_pos_iter_xO. fold d. lia. }
    eexists. split; [reflexivity|]. right. exists m, (Z.pos d - 53).
    split; [|split; [|lia]].
    + apply Prim2SF_SF2Prim. cbn [SpecFloat.valid_binary].
      unfold bounded, canonical_mantissa. rewrite Hdm.
      unfold fexp, SpecFloat.emin, prec, emax.
      apply andb_true_intro. split; [apply Z.eqb_eq|apply Z.leb_le]; lia.
    + pose proof (digits2_pos_gt m) as Hgt. rewrite Hdm in Hgt. exact Hgt.
Qed.

(** A float in the closed interval from 0.0 to 1.0. *)
Lemma unit_interval_spec (r : float) :
  (0 <=? r)%float = true → (r <=? 1)%float = true →
  (∃ s, Prim2SF r = S754_zero s) ∨
  ∃ m e, Prim2SF r = S754_finite false m e ∧ Z.pos m < 2 ^ 53 ∧ e <= -52.
Proof.
  rewrite !leb_spec. intros H0 H1.
  pose proof (Prim2SF_valid r) as Hv.
  change (Prim2SF 0) with (S754_zero false) in H0.
  change (Prim2SF 1) with (S754_finite false 4503599627370496 (-52)) in H1.
  destruct (Prim2SF r) as [s|s| |s m e].
  - left. eauto.
  - destruct s; discriminate.
  - discriminate.
  - right. destruct s; [discriminate|]. exists m, e. split; [reflexivity|].
    cbn [SpecFloat.valid_binary] in Hv. unfold bounded, canonical_mantissa in Hv.
    apply andb_prop in Hv as [Hc _]. apply Z.eqb_eq in Hc.
    unfold fexp, SpecFloat.emin, prec, emax in Hc.
    pose proof (digits2_pos_gt m) as Hgt.
    split.
    + eapply Z.lt_le_trans; [exact Hgt|]. apply Z.pow_le_mono_r; lia.
    + unfold SFleb, SFcompare in H1.
      destruct (Z.compare_spec e (-52)); [lia|lia|discriminate].
Qed.

(** The product [n * r] of a dimension and a ratio from 0.0 to 1.0 is a zero
    or a positive finite float. *)
Lemma scaled_size_finite (n : Z) (r : float) :
  0 <= n < 2 ^ 31 →
  (0 <=? r)%float = true → (r <=? 1)%float = true →
  ∃ a, float_of_int n = inr a ∧
       ((∃ s, Prim2SF (a * r) = S754_zero s) ∨
        ∃ m e, Prim2SF (a * r) = S754_finite false m e).
Proof.
  intros Hn H0 H1.
  destruct (float_of_int_small n 31 ltac:(lia) Hn) as (a & Ha & Hsa).
  exists a. split; [exact Ha|]. rewrite mul_spec. unfold SF64mul.
  destruct (unit_interval_spec r H0 H1) as [[s ->]|(mr & er & -> & Hmr & Her)];
    destruct Hsa as [->|(ma & ea & -> & Hma & Hea)]; cbn [SFmul]; eauto.
  destruct (binary_round_aux_finite (xorb false false) (ma * mr) (ea + er) loc_Exact 106)
    as [->|(m' & e' & ->)]; eauto.
  - lia.
  - rewrite Pos2Z.inj_mul. change (2 ^ 106) with (2 ^ 53 * 2 ^ 53). nia.
  - unfold prec, emax. lia.
Qed.

(** [int(x)], when defined, is the exact value truncated toward zero. *)
Lemma int_of_float_truncated (x : float) (z : Z) :
  int_of_float x = inr z → truncated (Prim2SF x) z.
Proof.
  unfold int_of_float, truncated.
  destruct (Prim2SF x) as [s|s| |s m e]; try discriminate; intros [= <-];
    [reflexivity|].
  exists (Z.shiftl (Z.pos m) e). split; [reflexivity|].
  destruct (Z.le_gt_cases 0 e) as [He|He].
  - rewrite Z.shiftl_mul_pow2 by lia.
    rewrite (Z.max_l 0 (- e)), (Z.max_r 0 e) by lia.
    assert (0 < 2 ^ e) by (apply Z.pow_pos_nonneg; lia). nia.
  - rewrite Z.shiftl_div_pow2 by lia.
    rewrite (Z.max_r 0 (- e)), (Z.max_l 0 e) by lia.
    assert (0 < 2 ^ (- e)) as Hp by (apply Z.pow_pos_nonneg; lia).
    pose proof (Z.div_mod (Z.pos m) (2 ^ (- e)) ltac:(lia)) as Hdm.
    pose proof (Z.mod_pos_bound (Z.pos m) (2 ^ (- e)) Hp) as Hmod.
    assert (0 <= Z.pos m / 2 ^ (- e)) by (apply Z.div_pos; lia).
    nia.
Qed.

(** [int(x)] raises on NaN and on the infinities only. *)
Lemma int_of_float_raises (x : float) (e : exn) :
  int_of_float x = inl e →
  Prim2SF x = S754_nan ∨ ∃ s, Prim2SF x = S754_infinity s.
Proof.
  unfold int_of_float.
  destruct (Prim2SF x) as [s|s| |s m ex]; try discriminate; eauto.
Qed.

Lemma font_size_of_returns (height : Z) (font_size_ratio : float) σ :
  0 <= height < 2 ^ 31 →
  (0 <=? font_size_ratio)%float = true → (font_size_ratio <=? 1)%float = true →
  ∃ z, font_size_of height font_size_ratio σ = (Returned z, σ) ∧ 0 <= z.
Proof.
  intros Hh H0 H1.
  destruct (scaled_size_finite height font_size_ratio Hh H0 H1) as (a & Ha & Hfin).
  unfold font_size_of, mul_int_float. rewrite Ha. cbn.
  unfold mbind, py_bind, mret, py_ret, int_of_float.
  destruct Hfin as [[s ->]|(m & e & ->)]; eexists; (split; [reflexivity|]);
    [lia|apply Z.shiftl_nonneg; lia].
Qed.


(** * The order of floats *)

Lemma SFcompare_key (x y : spec_float) :
  match SFcompare x y with
  | Some Lt => key_lt (order_key x) (order_key y)
  | Some Eq => order_key x = order_key y
  | Some Gt => key_lt (order_key y) (order_key x)
  | None => x = S754_nan ∨ y = S754_nan
  end.
Proof.
  destruct x as [sx|sx| |sx mx ex], y as [sy|sy| |sy my ey]; cbn;
    try destruct sx; try destruct sy; cbn; auto; try lia.
  all: change (Pos.compare_cont Eq mx my) with (Pos.compare mx my);
    destruct (Z.compare_spec ex ey), (Pos.compare_spec mx my); cbn;
    try lia; try (f_equal; lia); try congruence.
Qed.

Lemma ltb_key (x y : float) :
  (x <? y)%float = true → key_lt (order_key (Prim2SF x)) (order_key (Prim2SF y)).
Proof.
  rewrite ltb_spec. unfold SFltb.
  pose proof (SFcompare_key (Prim2SF x) (Prim2SF y)) as H.
  destruct (SFcompare (Prim2SF x) (Prim2SF y)) as [[]|]; try discriminate. auto.
Qed.

Lemma leb_key (x y : float) :
  (x <=? y)%float = true →
  key_lt (order_key (Prim2SF x)) (order_key (Prim2SF y)) ∨
  order_key (Prim2SF x) = order_key (Prim2SF y).
Proof.
  rewrite leb_spec. unfold SFleb.
  pose proof (SFcompare_key (Prim2SF x) (Prim2SF y)) as H.
  destruct (SFcompare (Prim2SF x) (Prim2SF y)) as [[]|]; try discriminate; auto.
Qed.

Lemma key_ltb (x y : float) :
  Prim2SF x ≠ S754_nan → Prim2SF y ≠ S754_nan →
  key_lt (order_key (Prim2SF x)) (order_key (Prim2SF y)) → (x <? y)%float = true.
Proof.
  intros Hx Hy Hlt. rewrite ltb_spec. unfold SFltb.
  pose proof (SFcompare_key (Prim2SF x) (Prim2SF y)) as H.
  destruct (SFcompare (Prim2SF x) (Prim2SF y)) as [[]|]; [| reflexivity | |tauto];
    exfalso; destruct (order_key (Prim2SF x)) as [[a1 b1] c1],
                      (order_key (Prim2SF y)) as [[a2 b2] c2]; cbn in *.
  - injection H as -> -> ->. lia.
  - lia.
Qed.

Lemma ltb_not_nan (x y : float) :
  (x <? y)%float = true → Prim2SF x ≠ S754_nan ∧ Prim2SF y ≠ S754_nan.
Proof.
  rewrite ltb_spec. unfold SFltb.
  destruct (Prim2SF x) as [|[]| |[]], (Prim2SF y) as [|[]| |[]]; cbn;
    try discriminate; split; discriminate.
Qed.

Lemma leb_not_nan (x y : float) :
  (x <=? y)%float = true → Prim2SF x ≠ S754_nan ∧ Prim2SF y ≠ S754_nan.
Proof.
  rewrite leb_spec. unfold SFleb.
  destruct (Prim2SF x) as [|[]| |[]], (Prim2SF y) as [|[]| |[]]; cbn;
    try discriminate; split; discriminate.
Qed.

(** [x < y <= z] gives [x < z], as on the reals. *)
Lemma ltb_leb_trans (x y z : float) :
  (x <? y)%float = true → (y <=? z)%float = true → (x <? z)%float = true.
Proof.
  intros Hxy Hyz.
  destruct (ltb_not_nan x y Hxy) as [Hx _]. destruct (leb_not_nan y z Hyz) as [_ Hz].
  apply key_ltb; try assumption.
  pose proof (ltb_key x y Hxy) as H1. pose proof (leb_key y z Hyz) as H2.
  destruct (order_key (Prim2SF x)) as [[a1 b1] c1],
           (order_key (Prim2SF y)) as [[a2 b2] c2],
           (order_key (Prim2SF z)) as [[a3 b3] c3]; cbn in *.
  destruct H2 as [H2|H2]; [lia|]. injection H2 as <- <- <-. lia.
Qed.

(** [x <= y] excludes [y < x]. *)
Lemma leb_ltb_false (x y : float) :
  (x <=? y)%float = true → (y <? x)%float = false.
Proof.
  intros Hxy. destruct (y <? x)%float eqn:Hyx; [exfalso|reflexivity].
  pose proof (ltb_key y x Hyx) as H1. pose proof (leb_key x y Hxy) as H2.
  destruct (order_key (Prim2SF x)) as [[a1 b1] c1],
           (order_key (Prim2SF y)) as [[a2 b2] c2]; cbn in *.
  destruct H2 as [H2|H2]; [lia|]. injection H2 as <- <- <-. lia.
Qed.

(** Nothing is below NaN, and NaN is below nothing. *)
Lemma ltb_nan (x : float) : (x <? nan)%float = false ∧ (nan <? x)%float = false.
Proof.
  rewrite !ltb_spec. change (Prim2SF nan) with S754_nan. unfold SFltb.
  split; destruct (Prim2SF x) as [|[]| |[]]; reflexivity.
Qed.


(** * Rounding to float32 *)

Lemma iter_pos_nat {A} (f : A → A) (n : positive) (x : A) :
  SpecFloat.iter_pos f n x = Nat.iter (Pos.to_nat n) f x.
Proof.
  revert x. induction n as [n IH|n IH|]; intros x; cbn [SpecFloat.iter_pos].
  - rewrite !IH, Pos2Nat.inj_xI.
    replace (S (2 * Pos.to_nat n)) with (Pos.to_nat n + (Pos.to_nat n + 1))%nat by lia.
    rewrite !Nat.iter_add. reflexivity.
  - rewrite !IH, Pos2Nat.inj_xO.
    replace (2 * Pos.to_nat n)%nat with (Pos.to_nat n + Pos.to_nat n)%nat by lia.
    rewrite Nat.iter_add. reflexivity.
  - reflexivity.
Qed.

Lemma shr_1_halves (m : Z) (r s : bool) :
  0 <= m →
  shr_1 (Build_shr_record m r s) = Build_shr_record (m / 2) (Z.odd m) (r || s).
Proof.
  intros Hm. destruct m as [|[p|p|]|p]; try lia; cbn [shr_1].
  - reflexivity.
  - assert (Z.pos p~1 / 2 = Z.pos p) as ->; [|reflexivity].
    symmetry. apply (Z.div_unique _ _ _ 1); lia.
  - assert (Z.pos p~0 / 2 = Z.pos p) as ->; [|reflexivity].
    symmetry. apply (Z.div_unique _ _ _ 0); lia.
  - reflexivity.
Qed.

Lemma shr_1_located (M k : Z) (mrs : shr_record) :
  0 <= k → 0 <= M → shr_located M k mrs → shr_located M (k + 1) (shr_1 mrs).
Proof.
  intros Hk HM [Hm Hloc]. destruct mrs as [m r s]. cbn [shr_m shr_r shr_s] in *.
  assert (0 < 2 ^ k) as Hp by (apply Z.pow_pos_nonneg; lia).
  assert (0 <= m) as Hm0 by (subst m; apply Z.div_pos; lia).
  rewrite shr_1_halves by assumption.
  unfold shr_located. cbn [shr_m shr_r shr_s].
  replace (k + 1 - 1) with k by lia.
  rewrite Z.pow_add_r, Z.pow_1_r by lia.
  rewrite Z.rem_mul_r by lia. rewrite <- Z.div_div by lia. rewrite <- Hm.
  split; [reflexivity|].
  pose proof (Z.mod_pos_bound M (2 ^ k) Hp) as Hb.
  rewrite Zmod_odd.
  assert (0 <= 2 ^ (k - 1)) as Hh by (apply Z.pow_nonneg; lia).
  destruct (Z.odd m), r, s; cbn [orb]; lia.
Qed.

Lemma shr_iter_located (M : Z) (n : nat) :
  0 <= M →
  shr_located M (Z.of_nat n) (Nat.iter n shr_1 (shr_record_of_loc M loc_Exact)).
Proof.
  intros HM. induction n as [|n IH].
  - cbn. unfold shr_located. cbn. rewrite Z.div_1_r, Z.mod_1_r. auto.
  - rewrite Nat2Z.inj_succ, <- Z.add_1_r. cbn [Nat.iter].
    apply shr_1_located; [lia|assumption|exact IH].
Qed.

(** Shifting right and rounding is [nearest_even]. *)
Lemma shr_nearest_even (M : Z) (p : positive) :
  0 <= M →
  let mrs := SpecFloat.iter_pos shr_1 p (shr_record_of_loc M loc_Exact) in
  round_nearest_even (shr_m mrs) (loc_of_shr_record mrs) = nearest_even M (Z.pos p).
Proof.
  intros HM mrs. subst mrs. rewrite iter_pos_nat.
  pose proof (shr_iter_located M (Pos.to_nat p) HM) as [Hm Hloc].
  rewrite positive_nat_Z in Hm, Hloc.
  destruct (Nat.iter (Pos.to_nat p) shr_1 (shr_record_of_loc M loc_Exact)) as [m r s].
  cbn [shr_m shr_r shr_s] in *. unfold nearest_even. rewrite <- Hm.
  assert (0 < 2 ^ (Z.pos p - 1)) as Hh by (apply Z.pow_pos_nonneg; lia).
  destruct r, s; cbn [loc_of_shr_record round_nearest_even].
  - assert ((2 ^ (Z.pos p - 1) <? M mod 2 ^ Z.pos p) = true) as -> by (apply Z.ltb_lt; lia).
    reflexivity.
  - destruct Hloc as [_ ->]. rewrite Z.ltb_irrefl, Z.eqb_refl. cbn [orb andb].
    rewrite <- Z.negb_even. destruct (Z.even m); reflexivity.
  - assert ((2 ^ (Z.pos p - 1) <? M mod 2 ^ Z.pos p) = false) as -> by (apply Z.ltb_ge; lia).
    assert ((M mod 2 ^ Z.pos p =? 2 ^ (Z.pos p - 1)) = false) as -> by (apply Z.eqb_neq; lia).
    reflexivity.
  - rewrite Hloc.
    assert ((2 ^ (Z.pos p - 1) <? 0) = false) as -> by (apply Z.ltb_ge; lia).
    assert ((0 =? 2 ^ (Z.pos p - 1)) = false) as -> by (apply Z.eqb_neq; lia).
    reflexivity.
Qed.

Lemma nearest_even_bounds (m k : Z) : m / 2 ^ k <= nearest_even m k <= m / 2 ^ k + 1.
Proof.
  unfold nearest_even.
  destruct ((2 ^ (k - 1) <? m mod 2 ^ k) || ((m mod 2 ^ k =? 2 ^ (k - 1)) && Z.odd (m / 2 ^ k)));
    lia.
Qed.

Lemma nearest_even_monotone (m1 m2 k : Z) :
  0 <= k → m1 <= m2 → nearest_even m1 k <= nearest_even m2 k.
Proof.
  intros Hk Hm.
  assert (0 < 2 ^ k) as Hp by (apply Z.pow_pos_nonneg; lia).
  pose proof (Z.div_le_mono m1 m2 (2 ^ k) Hp Hm) as Hq.
  pose proof (nearest_even_bounds m1 k) as H1.
  pose proof (nearest_even_bounds m2 k) as H2.
  destruct (Z.eq_dec (m1 / 2 ^ k) (m2 / 2 ^ k)) as [Heq|Hne]; [|lia].
  pose proof (Z.div_mod m1 (2 ^ k) ltac:(lia)) as D1.
  pose proof (Z.div_mod m2 (2 ^ k) ltac:(lia)) as D2.
  assert (m1 mod 2 ^ k <= m2 mod 2 ^ k) as Hrem by (rewrite Heq in D1; lia).
  unfold nearest_even. rewrite Heq.
  destruct (Z.ltb_spec (2 ^ (k - 1)) (m1 mod 2 ^ k)),
           (Z.ltb_spec (2 ^ (k - 1)) (m2 mod 2 ^ k)),
           (Z.eqb_spec (m1 mod 2 ^ k) (2 ^ (k - 1))),
           (Z.eqb_spec (m2 mod 2 ^ k) (2 ^ (k - 1))),
           (Z.odd (m2 / 2 ^ k)); cbn [orb andb]; lia.
Qed.

(** Rounding does not pass a multiple of the unit. *)
Lemma nearest_even_below (m k c : Z) :
  1 <= k → m <= c * 2 ^ k → nearest_even m k <= c.
Proof.
  intros Hk Hm.
  assert (0 < 2 ^ k) as Hp by (apply Z.pow_pos_nonneg; lia).
  assert (0 < 2 ^ (k - 1)) as Hh by (apply Z.pow_pos_nonneg; lia).
  pose proof (Z.div_le_mono m (c * 2 ^ k) (2 ^ k) Hp Hm) as Hq.
  rewrite Z.div_mul in Hq by lia.
  pose proof (nearest_even_bounds m k) as H1.
  destruct (Z.eq_dec (m / 2 ^ k) c) as [Heq|Hne]; [|lia].
  pose proof (Z.div_mod m (2 ^ k) ltac:(lia)) as D.
  pose proof (Z.mod_pos_bound m (2 ^ k) Hp) as Hb.
  assert (m mod 2 ^ k = 0) as H0 by (rewrite Heq in D; lia).
  unfold nearest_even. rewrite H0, Heq.
  assert ((2 ^ (k - 1) <? 0) = false) as -> by (apply Z.ltb_ge; lia).
  assert ((0 =? 2 ^ (k - 1)) = false) as -> by (apply Z.eqb_neq; lia).
  cbn. lia.
Qed.

Lemma nearest_even_above (m k c : Z) :
  0 <= k → c * 2 ^ k <= m → c <= nearest_even m k.
Proof.
  intros Hk Hm.
  assert (0 < 2 ^ k) as Hp by (apply Z.pow_pos_nonneg; lia).
  pose proof (Z.div_le_mono (c * 2 ^ k) m (2 ^ k) Hp Hm) as Hq.
  rewrite Z.div_mul in Hq by lia.
  pose proof (nearest_even_bounds m k). lia.
Qed.

(** Rounding at a coarser scale. *)
Lemma nearest_even_scaled (m k j : Z) :
  1 <= k → 0 <= j → nearest_even (m * 2 ^ j) (k + j) = nearest_even m k.
Proof.
  intros Hk Hj. unfold nearest_even.
  assert (0 < 2 ^ k) as Hp by (apply Z.pow_pos_nonneg; lia).
  assert (0 < 2 ^ j) as Hpj by (apply Z.pow_pos_nonneg; lia).
  replace (k + j - 1) with (k - 1 + j) by lia.
  rewrite !Z.pow_add_r by lia.
  rewrite Z.div_mul_cancel_r, Z.mul_mod_distr_r by lia.
  assert ((2 ^ (k - 1) * 2 ^ j <? m mod 2 ^ k * 2 ^ j) = (2 ^ (k - 1) <? m mod 2 ^ k)) as ->.
  { destruct (Z.ltb_spec (2 ^ (k - 1)) (m mod 2 ^ k)); [apply Z.ltb_lt|apply Z.ltb_ge]; nia. }
  assert ((m mod 2 ^ k * 2 ^ j =? 2 ^ (k - 1) * 2 ^ j) = (m mod 2 ^ k =? 2 ^ (k - 1))) as ->.
  { destruct (Z.eqb_spec (m mod 2 ^ k) (2 ^ (k - 1))); [apply Z.eqb_eq|apply Z.eqb_neq]; nia. }
  reflexivity.
Qed.

Lemma digits2_pos_le (p : positive) : 2 ^ (Z.pos (digits2_pos p) - 1) <= Z.pos p.
Proof.
  rewrite digits2_pos_size.
  pose proof (Pos.size_le p) as Hle.
  assert (2 ^ Z.pos (Pos.size p) <= 2 * Z.pos p) as Hz.
  { rewrite <- Pos2Z.inj_pow. change (2 * Z.pos p) with (Z.pos p~0). exact Hle. }
  replace (Z.pos (Pos.size p)) with (Z.pos (Pos.size p) - 1 + 1) in Hz by lia.
  rewrite Z.pow_add_r in Hz by lia. lia.
Qed.

Lemma pow2_le (a b : Z) : 0 <= a → a <= b → 2 ^ a <= 2 ^ b.
Proof. intros. apply Z.pow_le_mono_r; lia. Qed.

(** A valid binary64 mantissa and exponent. *)
Lemma bounded_spec (m : positive) (e : Z) :
  bounded prec emax m e = true →
  -1074 <= e <= 971 ∧
  (Z.pos (digits2_pos m) = 53 ∨ (e = -1074 ∧ Z.pos (digits2_pos m) < 53)) ∧
  Z.pos m < 2 ^ 53 ∧
  (-1074 < e → 2 ^ 52 <= Z.pos m).
Proof.
  unfold bounded, canonical_mantissa. intros H.
  apply andb_prop in H as [Hc He]. apply Z.eqb_eq in Hc. apply Z.leb_le in He.
  unfold fexp, SpecFloat.emin, prec, emax in *.
  pose proof (digits2_pos_gt m) as Hgt. pose proof (digits2_pos_le m) as Hle.
  set (d := Z.pos (digits2_pos m)) in *.
  assert (d <= 53) as Hd by lia.
  split; [lia|]. split; [lia|]. split.
  - eapply Z.lt_le_trans; [exact Hgt|]. apply pow2_le; lia.
  - intros Hn. assert (d = 53) as Hd53 by lia. rewrite Hd53 in Hle. exact Hle.
Qed.

(** On valid binary64 floats of one sign, exponent then mantissa order the
    values. *)
Lemma bounded_lex (m1 m2 : positive) (e1 e2 : Z) :
  bounded prec emax m1 e1 = true → bounded prec emax m2 e2 = true →
  e1 < e2 ∨ (e1 = e2 ∧ Z.pos m1 < Z.pos m2) →
  Z.pos m1 * 2 ^ (e1 + 1074) < Z.pos m2 * 2 ^ (e2 + 1074).
Proof.
  intros H1 H2 Hlex.
  destruct (bounded_spec m1 e1 H1) as (He1 & _ & Hm1 & _).
  destruct (bounded_spec m2 e2 H2) as (He2 & _ & _ & Hm2).
  assert (0 < 2 ^ (e1 + 1074)) as Hp1 by (apply Z.pow_pos_nonneg; lia).
  destruct Hlex as [Hlt|[-> Hlt]]; [|apply Z.mul_lt_mono_pos_r; assumption].
  specialize (Hm2 ltac:(lia)).
  replace (e2 + 1074) with (e1 + 1074 + (e2 - e1)) by lia.
  rewrite (Z.pow_add_r 2 (e1 + 1074) (e2 - e1)) by lia.
  pose proof (pow2_le 1 (e2 - e1) ltac:(lia) ltac:(lia)) as Hj.
  change (2 ^ 1) with 2 in Hj. change (2 ^ 53) with (2 * 2 ^ 52) in Hm1.
  assert (Z.pos m1 < Z.pos m2 * 2 ^ (e2 - e1)) as Hlt' by nia.
  rewrite (Z.mul_comm (2 ^ (e1 + 1074))), Z.mul_assoc.
  apply Z.mul_lt_mono_pos_r; assumption.
Qed.

Lemma rank_finite_bounds (s : bool) (m : positive) (e : Z) :
  bounded prec emax m e = true →
  0 < Z.pos m * 2 ^ (e + 1074) < 2 ^ 3000.
Proof.
  intros H. destruct (bounded_spec m e H) as (He & _ & Hm & _).
  assert (0 < 2 ^ (e + 1074)) as Hp by (apply Z.pow_pos_nonneg; lia).
  split; [lia|].
  pose proof (pow2_le (e + 1074) 2045 ltac:(lia) ltac:(lia)) as Hle.
  assert (2 ^ 53 * 2 ^ 2045 < 2 ^ 3000) as Hc by (vm_compute; reflexivity).
  nia.
Qed.

Lemma key_lt_rank (x y : spec_float) :
  valid_binary x = true → valid_binary y = true →
  key_lt (order_key x) (order_key y) → rank x < rank y.
Proof.
  assert (0 < 2 ^ 3000) as Htop by (vm_compute; reflexivity).
  intros Hx Hy.
  destruct x as [sx|sx| |sx mx ex], y as [sy|sy| |sy my ey];
    cbn [order_key rank valid_binary SpecFloat.valid_binary] in *;
    unfold key_lt; cbv beta iota zeta;
    try pose proof (rank_finite_bounds sx mx ex Hx);
    try pose proof (rank_finite_bounds sy my ey Hy);
    try destruct sx; try destruct sy; try lia.
  - intros [?|[_ Hlex]]; [lia|].
    pose proof (bounded_lex my mx ey ex Hy Hx ltac:(lia)). lia.
  - intros [?|[_ Hlex]]; [lia|].
    pose proof (bounded_lex mx my ex ey Hx Hy ltac:(lia)). lia.
Qed.

(** The right shift that rounding a binary64 float to float32 starts with. *)
Lemma float32_shift (m : positive) (e : Z) :
  bounded prec emax m e = true →
  let k := fexp f32_prec f32_emax (Z.pos (digits2_pos m) + e) - e in
  (k = 29 ∧ -149 <= e + k ∧ 2 ^ 52 <= Z.pos m) ∨
  (29 < k ∧ e + k = -149 ∧ Z.pos m <= 2 ^ 23 * 2 ^ k).
Proof.
  intros Hb k. destruct (bounded_spec m e Hb) as (He & Hd & Hm & Hn).
  pose proof (digits2_pos_gt m) as Hgt.
  subst k. unfold fexp, SpecFloat.emin, f32_prec, f32_emax.
  set (d := Z.pos (digits2_pos m)) in *.
  destruct (Z_le_gt_dec (-149) (d + e - 24)) as [Hc|Hc].
  - left. rewrite Z.max_l by lia. split; [lia|]. split; [lia|]. apply Hn. lia.
  - right. rewrite Z.max_r by lia. split; [lia|]. split; [lia|].
    rewrite <- Z.pow_add_r by lia.
    pose proof (pow2_le d (23 + (3 - 128 - 24 - e)) ltac:(lia) ltac:(lia)). lia.
Qed.

(** The second normalisation of a rounded float32 mantissa. *)
Lemma float32_renormalize (q G : Z) :
  0 <= q <= 2 ^ 24 → -149 <= G →
  shr_fexp f32_prec f32_emax q G loc_Exact =
    if q =? 2 ^ 24 then (Build_shr_record (2 ^ 23) false false, G + 1)
    else (Build_shr_record q false false, G).
Proof.
  intros Hq HG. unfold shr_fexp.
  destruct (Z.eqb_spec q (2 ^ 24)) as [->|Hne].
  - change (Zdigits2 (2 ^ 24)) with 25.
    unfold fexp, SpecFloat.emin, f32_prec, f32_emax.
    replace ((25 + G - 24) `max` (3 - 128 - 24) - G) with 1 by lia.
    reflexivity.
  - pose proof (Zdigits2_bound q 24 ltac:(lia) ltac:(lia)) as Hd.
    unfold fexp, SpecFloat.emin, f32_prec, f32_emax.
    set (n := (Zdigits2 q + G - 24) `max` (3 - 128 - 24) - G).
    assert (n <= 0) as Hn by (subst n; lia).
    destruct n as [| |]; try lia; reflexivity.
Qed.

(** Rounding a valid binary64 float to float32. *)
Lemma binary_round_float32 (s : bool) (m : positive) (e : Z) :
  bounded prec emax m e = true →
  let k := fexp f32_prec f32_emax (Z.pos (digits2_pos m) + e) - e in
  let w := nearest_even (Z.pos m) k * 2 ^ (e + k + 1074) in
  match binary_round f32_prec f32_emax s m e with
  | S754_zero s' => s' = s ∧ w = 0
  | S754_finite s' m' e' =>
      s' = s ∧ Z.pos m' * 2 ^ (e' + 1074) = w ∧ w < 2 ^ 1202 ∧
      Z.pos m' < 2 ^ 24 ∧ -149 <= e' <= 104
  | S754_infinity s' => s' = s ∧ 2 ^ 1202 <= w
  | S754_nan => False
  end.
Proof.
  intros Hb k w. pose proof (float32_shift m e Hb) as Hk. fold k in Hk. cbv zeta in Hk.
  assert (0 <= nearest_even (Z.pos m) k <= 2 ^ 24 ∧
          (104 < e + k → 2 ^ 23 <= nearest_even (Z.pos m) k)) as [Hq Hbig].
  { destruct Hk as [(Hk & HG & Hm)|(Hk & HG & Hm)].
    - destruct (bounded_spec m e Hb) as (_ & _ & Hm' & _).
      split; [split|intros _].
      + apply (nearest_even_above _ _ 0); lia.
      + apply nearest_even_below; [lia|]. rewrite Hk.
        change (2 ^ 24 * 2 ^ 29) with (2 ^ 53). lia.
      + apply nearest_even_above; [lia|]. rewrite Hk.
        change (2 ^ 23 * 2 ^ 29) with (2 ^ 52). lia.
    - split; [split|lia].
      + apply (nearest_even_above _ _ 0); lia.
      + transitivity (2 ^ 23); [|vm_compute; discriminate].
        apply nearest_even_below; [lia|assumption]. }
  assert (-149 <= e + k ∧ 29 <= k) as [HG Hk29] by lia.
  unfold binary_round, shl_align. fold k.
  destruct k as [|p|p] eqn:Ek; try lia.
  unfold binary_round_aux.
  assert (shr_fexp f32_prec f32_emax (Z.pos m) e loc_Exact =
          (SpecFloat.iter_pos shr_1 p (shr_record_of_loc (Z.pos m) loc_Exact), e + Z.pos p)) as ->.
  { unfold shr_fexp. cbn [Zdigits2]. fold k. rewrite Ek. reflexivity. }
  rewrite shr_nearest_even by lia.
  set (q := nearest_even (Z.pos m) (Z.pos p)) in *.
  rewrite (float32_renormalize q (e + Z.pos p)) by lia.
  assert (0 < 2 ^ (e + Z.pos p + 1074)) as Hp by (apply Z.pow_pos_nonneg; lia).
  destruct (Z.eqb_spec q (2 ^ 24)) as [Hq24|Hq24].
  - cbn [shr_m]. change (2 ^ 23) with (Z.pos (Z.to_pos (2 ^ 23))).
    cbv iota. subst w. rewrite Hq24.
    assert (Z.pos (Z.to_pos (2 ^ 23)) * 2 ^ (e + Z.pos p + 1 + 1074)
            = 2 ^ 24 * 2 ^ (e + Z.pos p + 1074)) as Hv.
    { replace (e + Z.pos p + 1 + 1074) with (e + Z.pos p + 1074 + 1) by lia.
      rewrite (Z.pow_add_r 2 (e + Z.pos p + 1074) 1) by lia.
      change (Z.pos (Z.to_pos (2 ^ 23))) with (2 ^ 23). change (2 ^ 24) with (2 ^ 23 * 2 ^ 1).
      ring. }
    rewrite <- (Z.pow_add_r 2 24) by lia.
    rewrite <- (Z.pow_add_r 2 24) in Hv by lia.
    destruct (Z.leb_spec (e + Z.pos p + 1) (f32_emax - f32_prec)) as [Hle|Hgt];
      unfold f32_emax, f32_prec in *.
    + split; [reflexivity|]. split; [exact Hv|]. split.
      * apply Z.pow_lt_mono_r; lia.
      * split; [vm_compute; reflexivity|clear - HG Hle; lia].
    + split; [reflexivity|]. apply pow2_le; lia.
  - cbn [shr_m]. subst w. fold q.
    destruct q as [|q'|q'] eqn:Eq; [auto| |lia].
    destruct (Z.leb_spec (e + Z.pos p) (f32_emax - f32_prec)) as [Hle|Hgt];
      unfold f32_emax, f32_prec in *.
    + assert (Z.pos q' < 2 ^ 24) as Hlt by lia.
      split; [reflexivity|]. split; [reflexivity|]. split; [|lia].
      pose proof (pow2_le (e + Z.pos p + 1074) 1178 ltac:(lia) ltac:(lia)) as Hle2.
      assert (2 ^ 24 * 2 ^ 1178 = 2 ^ 1202) as <- by (vm_compute; reflexivity).
      apply Z.lt_le_trans with (2 ^ 24 * 2 ^ (e + Z.pos p + 1074)).
      * apply Z.mul_lt_mono_pos_r; assumption.
      * apply Z.mul_le_mono_nonneg_l; [vm_compute; discriminate|assumption].
    + split; [reflexivity|]. specialize (Hbig ltac:(lia)).
      pose proof (pow2_le 1179 (e + Z.pos p + 1074) ltac:(lia) ltac:(lia)) as Hle2.
      assert (2 ^ 23 * 2 ^ 1179 = 2 ^ 1202) as <- by (vm_compute; reflexivity).
      apply Z.le_trans with (2 ^ 23 * 2 ^ (e + Z.pos p + 1074)).
      * apply Z.mul_le_mono_nonneg_l; [vm_compute; discriminate|assumption].
      * apply Z.mul_le_mono_nonneg_r; lia.
Qed.

Lemma iter_xO_value (p k : positive) :
  Z.pos (Pos.iter xO p k) = Z.pos p * 2 ^ Z.pos k.
Proof.
  induction k using Pos.peano_ind.
  - cbn. lia.
  - rewrite Pos.iter_succ, Pos2Z.inj_succ, Z.pow_succ_r by lia.
    rewrite Pos2Z.inj_xO, IHk. ring.
Qed.

(** A float32 value is a binary64 value. *)
Lemma binary_round_float64 (s : bool) (m : positive) (e : Z) :
  Z.pos m < 2 ^ 24 → -149 <= e <= 104 →
  ∃ m' e', binary_round prec emax s m e = S754_finite s m' e' ∧
           bounded prec emax m' e' = true ∧
           Z.pos m' * 2 ^ (e' + 1074) = Z.pos m * 2 ^ (e + 1074).
Proof.
  intros Hm He.
  assert (Z.pos (digits2_pos m) <= 25) as Hd.
  { pose proof (Zdigits2_bound (Z.pos m) 25 ltac:(lia)) as H. cbn [Zdigits2] in H.
    apply H. split; [lia|]. eapply Z.lt_trans; [exact Hm|]. vm_compute. reflexivity. }
  set (d := digits2_pos m) in *.
  set (n := Z.to_pos (53 - Z.pos d)).
  exists (Pos.iter xO m n), (Z.pos d + e - 53).
  assert (Z.pos (digits2_pos (Pos.iter xO m n)) = 53) as Hdn.
  { rewrite digits2_pos_iter_xO. fold d. subst n. lia. }
  assert (fexp prec emax (53 + (Z.pos d + e - 53)) = Z.pos d + e - 53) as Hf.
  { unfold fexp, SpecFloat.emin, prec, emax. lia. }
  split; [|split].
  - unfold binary_round, shl_align. fold d.
    assert (fexp prec emax (Z.pos d + e) = Z.pos d + e - 53) as ->.
    { unfold fexp, SpecFloat.emin, prec, emax. lia. }
    destruct (Z.pos d + e - 53 - e) as [|q|q] eqn:Hq; try lia.
    assert (q = n) as -> by (subst n; lia).
    unfold binary_round_aux, shr_fexp, Zdigits2.
    rewrite Hdn, Hf, Z.sub_diag.
    cbn [shr shr_record_of_loc loc_of_shr_record shr_m round_nearest_even Zdigits2].
    rewrite Hdn, Hf, Z.sub_diag. cbn [shr shr_m shr_record_of_loc].
    assert ((Z.pos d + e - 53 <=? emax - prec) = true) as ->.
    { apply Z.leb_le. unfold prec, emax. lia. }
    reflexivity.
  - unfold bounded, canonical_mantissa. rewrite Hdn, Hf.
    apply andb_true_intro. split; [apply Z.eqb_refl|].
    apply Z.leb_le. unfold prec, emax. lia.
  - rewrite iter_xO_value.
    replace (e + 1074) with (Z.pos n + (Z.pos d + e - 53 + 1074)) by (subst n; lia).
    rewrite (Z.pow_add_r 2 (Z.pos n)) by lia. ring.
Qed.

(** Rounding to float32 keeps the order of valid binary64 floats of one
    sign. *)
Lemma rounded_lex (m1 m2 : positive) (e1 e2 : Z) :
  bounded prec emax m1 e1 = true → bounded prec emax m2 e2 = true →
  e1 < e2 ∨ (e1 = e2 ∧ Z.pos m1 <= Z.pos m2) →
  let k1 := fexp f32_prec f32_emax (Z.pos (digits2_pos m1) + e1) - e1 in
  let k2 := fexp f32_prec f32_emax (Z.pos (digits2_pos m2) + e2) - e2 in
  nearest_even (Z.pos m1) k1 * 2 ^ (e1 + k1 + 1074) <=
  nearest_even (Z.pos m2) k2 * 2 ^ (e2 + k2 + 1074).
Proof.
  intros H1 H2 Hlex k1 k2.
  pose proof (float32_shift m1 e1 H1) as S1. fold k1 in S1.
  pose proof (float32_shift m2 e2 H2) as S2. fold k2 in S2. cbv zeta in S1, S2.
  destruct (bounded_spec m1 e1 H1) as (He1 & Hd1 & Hm1 & _).
  destruct (bounded_spec m2 e2 H2) as (He2 & Hd2 & Hm2 & Hn2).
  assert (29 <= k1 ∧ 29 <= k2 ∧ -149 <= e1 + k1 ∧ -149 <= e2 + k2) as (Hk1 & Hk2 & HG1 & HG2)
    by lia.
  destruct (Z.eq_dec (e1 + k1) (e2 + k2)) as [HG|HG].
  - (* one grid *)
    rewrite HG. apply Z.mul_le_mono_nonneg_r; [apply Z.pow_nonneg; lia|].
    destruct Hlex as [Hlt|[-> Hle]].
    + replace k1 with (k2 + (e2 - e1)) by lia.
      rewrite <- (nearest_even_scaled (Z.pos m2) k2 (e2 - e1)) by lia.
      apply nearest_even_monotone; [lia|].
      specialize (Hn2 ltac:(lia)).
      pose proof (pow2_le 1 (e2 - e1) ltac:(lia) ltac:(lia)) as Hj.
      change (2 ^ 1) with 2 in Hj. change (2 ^ 53) with (2 * 2 ^ 52) in Hm1. nia.
    + replace k1 with k2 by lia. apply nearest_even_monotone; lia.
  - (* the second float is in a coarser grid *)
    assert (e1 < e2 ∧ e1 + k1 < e2 + k2 ∧ k2 = 29) as (Hlt & HGlt & Hk).
    { subst k1 k2. unfold fexp, SpecFloat.emin, f32_prec, f32_emax in *.
      pose proof (digits2_pos_gt m1). pose proof (digits2_pos_gt m2).
      destruct Hlex as [Hlt|[-> Hle]]; [lia|exfalso].
      destruct Hd1 as [Hd1|[Hd1 Hd1']], Hd2 as [Hd2|[Hd2 Hd2']]; lia. }
    specialize (Hn2 ltac:(lia)).
    apply Z.le_trans with (2 ^ 23 * 2 ^ (e2 + k2 + 1074)).
    + replace (e2 + k2 + 1074) with (e2 + k2 - (e1 + k1) + (e1 + k1 + 1074)) by lia.
      rewrite (Z.pow_add_r 2 (e2 + k2 - (e1 + k1))) by lia.
      rewrite Z.mul_assoc. apply Z.mul_le_mono_nonneg_r; [apply Z.pow_nonneg; lia|].
      rewrite <- (Z.pow_add_r 2 23) by lia.
      apply nearest_even_below; [lia|].
      rewrite <- Z.pow_add_r by lia.
      pose proof (pow2_le 53 (23 + (e2 + k2 - (e1 + k1)) + k1) ltac:(lia) ltac:(lia)). lia.
    + apply Z.mul_le_mono_nonneg_r; [apply Z.pow_nonneg; lia|].
      apply nearest_even_above; [lia|]. rewrite Hk.
      change (2 ^ 23 * 2 ^ 29) with (2 ^ 52). exact Hn2.
Qed.

(** Floats that are not NaN are totally ordered. *)
Lemma ltb_false_leb (x y : float) :
  Prim2SF x ≠ S754_nan → Prim2SF y ≠ S754_nan →
  (x <? y)%float = false → (y <=? x)%float = true.
Proof.
  intros Hx Hy Hxy. rewrite leb_spec. unfold SFleb.
  pose proof (SFcompare_key (Prim2SF y) (Prim2SF x)) as H.
  destruct (SFcompare (Prim2SF y) (Prim2SF x)) as [[]|]; try reflexivity.
  - rewrite (key_ltb x y Hx Hy H) in Hxy. discriminate.
  - tauto.
Qed.

Lemma float32_weight_bounds (m : positive) (e : Z) :
  bounded prec emax m e = true → 0 <= float32_weight m e <= 2 ^ 3000.
Proof.
  intros Hb. unfold float32_weight.
  pose proof (float32_shift m e Hb) as Hk. cbv zeta in Hk.
  set (k := fexp f32_prec f32_emax (Z.pos (digits2_pos m) + e) - e) in *.
  assert (0 <= nearest_even (Z.pos m) k) by (apply (nearest_even_above _ _ 0); lia).
  assert (0 <= 2 ^ (e + k + 1074)) by (apply Z.pow_nonneg; lia).
  assert (2 ^ 1202 <= 2 ^ 3000) by (apply pow2_le; lia).
  set (w := nearest_even (Z.pos m) k * 2 ^ (e + k + 1074)).
  assert (0 <= w) by (subst w; apply Z.mul_nonneg_nonneg; assumption).
  destruct (Z.ltb_spec w (2 ^ 1202)); lia.
Qed.

Lemma float32_weight_lex (m1 m2 : positive) (e1 e2 : Z) :
  bounded prec emax m1 e1 = true → bounded prec emax m2 e2 = true →
  e1 < e2 ∨ (e1 = e2 ∧ Z.pos m1 <= Z.pos m2) →
  float32_weight m1 e1 <= float32_weight m2 e2.
Proof.
  intros H1 H2 Hlex. pose proof (rounded_lex m1 m2 e1 e2 H1 H2 Hlex) as Hw.
  cbv zeta in Hw. unfold float32_weight.
  set (w1 := nearest_even (Z.pos m1) _ * _) in *.
  set (w2 := nearest_even (Z.pos m2) _ * _) in *.
  assert (2 ^ 1202 <= 2 ^ 3000) by (apply pow2_le; lia).
  destruct (Z.ltb_spec w1 (2 ^ 1202)), (Z.ltb_spec w2 (2 ^ 1202)); lia.
Qed.

Lemma rounded_rank_monotone (x y : spec_float) :
  valid_binary x = true → valid_binary y = true →
  key_lt (order_key x) (order_key y) ∨ order_key x = order_key y →
  rounded_rank x <= rounded_rank y.
Proof.
  assert (0 < 2 ^ 3000) as Htop by (apply Z.pow_pos_nonneg; lia).
  intros Hx Hy.
  destruct x as [sx|sx| |sx mx ex], y as [sy|sy| |sy my ey];
    cbn [order_key rank rounded_rank valid_binary SpecFloat.valid_binary] in *;
    unfold key_lt; cbv beta iota zeta;
    try pose proof (float32_weight_bounds mx ex Hx);
    try pose proof (float32_weight_bounds my ey Hy);
    try destruct sx; try destruct sy;
    intros [Hlt|Heq]; try discriminate Heq; try lia.
  - pose proof (float32_weight_lex my mx ey ex Hy Hx ltac:(lia)). lia.
  - injection Heq as He Hm.
    pose proof (float32_weight_lex my mx ey ex Hy Hx ltac:(lia)). lia.
  - pose proof (float32_weight_lex mx my ex ey Hx Hy ltac:(lia)). lia.
  - injection Heq as He Hm.
    pose proof (float32_weight_lex mx my ex ey Hx Hy ltac:(lia)). lia.
Qed.

(** [to_float32] on the ranks. *)
Lemma to_float32_rank (x : float) :
  rank (Prim2SF (to_float32 x)) = rounded_rank (Prim2SF x) ∧
  (Prim2SF (to_float32 x) = S754_nan → Prim2SF x = S754_nan).
Proof.
  unfold to_float32. pose proof (Prim2SF_valid x) as Hv.
  destruct (Prim2SF x) as [s|s| |s m e] eqn:Ex; try (rewrite Ex; split; [reflexivity|auto]).
  cbn [SpecFloat.valid_binary valid_binary] in Hv.
  pose proof (binary_round_float32 s m e Hv) as H. cbv zeta in H.
  cbn [rounded_rank]. unfold float32_weight.
  set (w := nearest_even (Z.pos m) _ * _) in *.
  destruct (binary_round f32_prec f32_emax s m e) as [s'|s'| |s' m' e'];
    cbn [float64_of_float32].
  - destruct H as [-> Hw]. rewrite Prim2SF_SF2Prim by reflexivity.
    rewrite Hw. cbn [rank]. split; [destruct s; reflexivity|discriminate].
  - destruct H as [-> Hw]. rewrite Prim2SF_SF2Prim by reflexivity.
    assert ((w <? 2 ^ 1202) = false) as -> by (apply Z.ltb_ge; exact Hw).
    cbn [rank]. split; [reflexivity|discriminate].
  - destruct H.
  - destruct H as (-> & Hval & Hw & Hm & He).
    destruct (binary_round_float64 s m' e' Hm He) as (m2 & e2 & -> & Hb & Hv2).
    rewrite Prim2SF_SF2Prim by exact Hb.
    assert ((w <? 2 ^ 1202) = true) as -> by (apply Z.ltb_lt; exact Hw).
    cbn [rank]. rewrite Hv2, Hval. split; [reflexivity|discriminate].
Qed.

(** Rounding to float32 is monotone. *)
Lemma to_float32_monotone (x y : float) :
  (x <=? y)%float = true → (to_float32 x <=? to_float32 y)%float = true.
Proof.
  intros Hxy. destruct (leb_not_nan x y Hxy) as [Hx Hy].
  destruct (to_float32_rank x) as [Rx Nx], (to_float32_rank y) as [Ry Ny].
  pose proof (rounded_rank_monotone _ _ (Prim2SF_valid x) (Prim2SF_valid y)
                (leb_key x y Hxy)) as Hr.
  rewrite <- Rx, <- Ry in Hr.
  rewrite leb_spec. unfold SFleb.
  pose proof (SFcompare_key (Prim2SF (to_float32 x)) (Prim2SF (to_float32 y))) as H.
  destruct (SFcompare (Prim2SF (to_float32 x)) (Prim2SF (to_float32 y))) as [[]|];
    try reflexivity.
  - pose proof (key_lt_rank _ _ (Prim2SF_valid (to_float32 y))
                  (Prim2SF_valid (to_float32 x)) H). lia.
  - tauto.
Qed.

Lemma to_float32_nan (x : float) : Prim2SF x = S754_nan → to_float32 x = x.
Proof. unfold to_float32. intros ->. reflexivity. Qed.

Lemma ltb_nan_l (x y : float) : Prim2SF x = S754_nan → (x <? y)%float = false.
Proof. rewrite ltb_spec. intros ->. reflexivity. Qed.

Lemma ltb_nan_r (x y : float) : Prim2SF y = S754_nan → (x <? y)%float = false.
Proof.
  rewrite ltb_spec. intros ->. unfold SFltb. destruct (Prim2SF x) as [|[]| |[]]; reflexivity.
Qed.

(** What is not below the threshold in binary64 is not below it in
    float32. *)
Lemma to_float32_ltb_false (x y : float) :
  (x <? y)%float = false → (to_float32 x <? to_float32 y)%float = false.
Proof.
  intros Hxy.
  assert (Prim2SF x = S754_nan ∨ Prim2SF x ≠ S754_nan) as [Hx|Hx]
    by (destruct (Prim2SF x); auto; right; discriminate).
  { rewrite (to_float32_nan x Hx). apply ltb_nan_l, Hx. }
  assert (Prim2SF y = S754_nan ∨ Prim2SF y ≠ S754_nan) as [Hy|Hy]
    by (destruct (Prim2SF y); auto; right; discriminate).
  { rewrite (to_float32_nan y Hy). apply ltb_nan_r, Hy. }
  apply leb_ltb_false, to_float32_monotone, ltb_false_leb; assumption.
Qed.




(** * Lemmas on the masker *)

Lemma fresh_not_allocated (h : gmap positive (ndarray float)) :
  h !! fresh (dom h) = None.
Proof. apply not_elem_of_dom, is_fresh. Qed.

Lemma fresh_differs (h : gmap positive (ndarray float)) (l : positive) (a : ndarray float) :
  h !! l = Some a → fresh (dom h) ≠ l.
Proof. intros Hl E. rewrite <- E, fresh_not_allocated in Hl. discriminate. Qed.

Lemma create_masked_stipple_returns σ s m thr stipple mask :
  heap σ !! s = Some stipple →
  heap σ !! m = Some mask →
  shape stipple = shape mask →
  create_masked_stipple s m thr σ =
    (Returned (fresh (dom (heap σ))),
     World (<[fresh (dom (heap σ)) := masked stipple mask thr]> (heap σ))
           (stdout σ ++ masker_report stipple mask thr)).
Proof.
  intros Hs Hm Hshape.
  unfold create_masked_stipple, mbind, py_bind, load at 1 2. rewrite Hs, Hm.
  rewrite bool_decide_eq_false_2 by (intros Hne; exact (Hne Hshape)).
  unfold ndarray_copy, alloc, load, store, print, mret, py_ret. cbn [heap stdout].
  rewrite lookup_insert_ne by (eapply fresh_differs; eassumption).
  rewrite Hm. cbn [heap stdout]. rewrite lookup_insert_eq. cbn [heap stdout].
  rewrite lookup_insert_eq, insert_insert_eq.
  unfold masker_report, masked. cbn [heap stdout]. rewrite <- !app_assoc. reflexivity.
Qed.

Lemma masked_lookup stipple mask thr (i : nat) :
  data (masked stipple mask thr) !! i =
    (λ sv, match data mask !! i with
           | Some mv =>
               if (cast (dtype mask) mv <? cast (dtype mask) thr)%float
               then 1%float else sv
           | None => sv
           end) <$> data stipple !! i.
Proof.
  unfold masked, setitem_where, less. cbn [data].
  rewrite list_lookup_imap, list_lookup_fmap.
  destruct (data stipple !! i) as [sv|]; [cbn|reflexivity].
  destruct (data mask !! i) as [mv|]; reflexivity.
Qed.

Lemma masked_length stipple mask thr :
  length (data (masked stipple mask thr)) = length (data stipple).
Proof. unfold masked, setitem_where. cbn [data]. apply length_imap. Qed.

Lemma ndarray_eq {A} (a b : ndarray A) :
  dtype a = dtype b → shape a = shape b → data a = data b → a = b.
Proof. destruct a, b. cbn. congruence. Qed.

(** What is not below the threshold as Python floats compare is not below
    it as numpy compares in the dtype of the array. *)
Lemma cast_ltb_false (t : np_type) (x y : float) :
  (x <? y)%float = false → (cast t x <? cast t y)%float = false.
Proof. destruct t; cbn [cast]; auto using to_float32_ltb_false. Qed.

(** The conversion to a dtype is monotone. *)
Lemma cast_monotone (t : np_type) (x y : float) :
  (x <=? y)%float = true → (cast t x <=? cast t y)%float = true.
Proof. destruct t; cbn [cast]; auto using to_float32_monotone. Qed.

Lemma cast_nan (t : np_type) : cast t nan = nan.
Proof. destruct t; reflexivity. Qed.

Lemma masked_idempotent stipple mask thr :
  masked (masked stipple mask thr) mask thr = masked stipple mask thr.
Proof.
  apply ndarray_eq; [reflexivity|reflexivity|].
  apply list_eq. intros i. rewrite !masked_lookup.
  destruct (data stipple !! i) as [sv|]; [cbn|reflexivity].
  destruct (data mask !! i) as [mv|]; [|reflexivity].
  destruct (cast (dtype mask) mv <? cast (dtype mask) thr)%float; reflexivity.
Qed.

(** Row-major addressing stays inside the buffer. *)
Lemma cell_lookup {A} (a : ndarray A) (h w r c : nat) :
  shape a = [h; w] → well_formed a → (r < h)%nat → (c < w)%nat →
  ∃ v, cell a r c = Some v ∧ data a !! (r * w + c)%nat = Some v.
Proof.
  intros Hshape Hwf Hr Hc. unfold cell. rewrite Hshape.
  rewrite decide_True by (split; assumption).
  assert (r * w + c < length (data a))%nat as Hlt.
  { unfold well_formed, size in Hwf. rewrite Hshape in Hwf. cbn in Hwf. nia. }
  destruct (lookup_lt_is_Some_2 _ _ Hlt) as [v Hv]. exists v. split; assumption.
Qed.

(** [x < x] never holds, for NaN either. *)
Lemma ltb_irreflexive (x : float) : (x <? x)%float = false.
Proof.
  rewrite ltb_spec. unfold SFltb.
  destruct (Prim2SF x) as [s|s| |s m e]; cbn; try reflexivity.
  - destruct s; reflexivity.
  - rewrite Z.compare_refl.
    assert (Pos.compare_cont Eq m m = Eq) as -> by apply Pos.compare_refl.
    destruct s; reflexivity.
Qed.

(** * Claims about [create_masked_stipple] *)

(** C1 (as the spec words it, refuted).  The mask of [gap_world] is a float32
    array whose first cell is [np.float32(0.7)], a value strictly below the
    threshold 0.7.  numpy compares the float32 array with [np.float32(0.7)],
    which is that same value: the cell is not selected and the stipple cell
    stays 0.0, where the claim has it become 1.0.  The second cell,
    [np.float32(0.6)], is masked. *)
Lemma float32_cell_below_threshold_kept :
  let '(outcome, σ') := create_masked_stipple 1 2 gap_threshold gap_world in
  outcome = Returned 3%positive ∧
  cell gap_mask 0 0 = Some 0x1.666666p-1%float ∧
  (0x1.666666p-1 <? gap_threshold)%float = true ∧
  heap σ' !! 3%positive = Some (NdArray float64 [1; 2]%nat [0; 1]%float).
Proof. vm_compute. repeat split; reflexivity. Qed.

(** C1 (amended).  For a stipple raster and a mask raster of one shape
    [h x w] and any threshold, [create_masked_stipple] returns a raster of
    shape [h x w] in which a cell is exactly 1.0 when its mask value is
    strictly below the threshold as numpy compares them, in the dtype of the
    mask (for a float32 mask the threshold is first rounded to float32), and
    is the stipple cell unchanged otherwise; a mask value equal to the
    converted threshold keeps the stipple cell.  A cell whose mask value is not
    below the threshold itself is unchanged whatever the dtype, and for a
    float64 mask the comparison is with the threshold itself. *)
Theorem masked_cells_in_mask_dtype σ s m thr stipple mask (h w : nat) :
  heap σ !! s = Some stipple →
  heap σ !! m = Some mask →
  shape stipple = [h; w] →
  shape mask = [h; w] →
  well_formed stipple →
  well_formed mask →
  ∃ out σ' result,
    create_masked_stipple s m thr σ = (Returned out, σ') ∧
    heap σ' !! out = Some result ∧
    shape result = [h; w] ∧
    well_formed result ∧
    ∀ r c, (r < h)%nat → (c < w)%nat →
      ∃ sv mv,
        cell stipple r c = Some sv ∧
        cell mask r c = Some mv ∧
        cell result r c =
          Some (if (cast (dtype mask) mv <? cast (dtype mask) thr)%float
                then 1%float else sv) ∧
        (cast (dtype mask) mv = cast (dtype mask) thr → cell result r c = Some sv) ∧
        ((mv <? thr)%float = false → cell result r c = Some sv) ∧
        (dtype mask = float64 →
         cell result r c = Some (if (mv <? thr)%float then 1%float else sv)).
Proof.
  intros Hs Hm Hss Hsm Hws Hwm.
  eexists _, _, (masked stipple mask thr).
  split; [apply (create_masked_stipple_returns σ s m thr stipple mask Hs Hm); congruence|].
  cbn [heap]. rewrite lookup_insert_eq.
  assert (well_formed (masked stipple mask thr)) as Hwr.
  { unfold well_formed. rewrite masked_length. exact Hws. }
  repeat split; [exact Hss|exact Hwr|].
  intros r c Hr Hc.
  destruct (cell_lookup stipple h w r c Hss Hws Hr Hc) as (sv & Hcs & Hds).
  destruct (cell_lookup mask h w r c Hsm Hwm Hr Hc) as (mv & Hcm & Hdm).
  destruct (cell_lookup (masked stipple mask thr) h w r c Hss Hwr Hr Hc)
    as (rv & Hcr & Hdr).
  rewrite masked_lookup, Hds, Hdm in Hdr. cbn in Hdr.
  injection Hdr as <-.
  exists sv, mv. repeat split; try assumption.
  - intros Heq. rewrite Hcr, Heq, ltb_irreflexive. reflexivity.
  - intros Hkeep. rewrite Hcr, (cast_ltb_false _ _ _ Hkeep). reflexivity.
  - intros Ht. rewrite Hcr, Ht. reflexivity.
Qed.

Lemma masked_cells_in_mask_dtype_witness :
  ∃ out σ' result,
    create_masked_stipple 1 2 gap_threshold gap_world = (Returned out, σ') ∧
    heap σ' !! out = Some result ∧
    shape result = [1; 2]%nat ∧
    well_formed result ∧
    ∀ r c, (r < 1)%nat → (c < 2)%nat →
      ∃ sv mv,
        cell gap_stipple r c = Some sv ∧
        cell gap_mask r c = Some mv ∧
        cell result r c =
          Some (if (cast float32 mv <? cast float32 gap_threshold)%float
                then 1%float else sv) ∧
        (cast float32 mv = cast float32 gap_threshold → cell result r c = Some sv) ∧
        ((mv <? gap_threshold)%float = false → cell result r c = Some sv) ∧
        (float32 = float64 →
         cell result r c = Some (if (mv <? gap_threshold)%float then 1%float else sv)).
Proof.
  apply (masked_cells_in_mask_dtype gap_world 1 2 gap_threshold gap_stipple gap_mask 1 2);
    reflexivity.
Defined.

(** C2. When the shapes of the two rasters differ, [create_masked_stipple]
    raises a [ValueError] whose message spells out both shapes; nothing is
    allocated and nothing is printed, so the state is the one it was called in. *)
Theorem shape_mismatch_raises σ s m thr stipple mask :
  heap σ !! s = Some stipple →
  heap σ !! m = Some mask →
  shape stipple ≠ shape mask →
  create_masked_stipple s m thr σ =
    (Raised (ValueError ("Image shapes don't match: stipple "
                           +:+ repr_shape (shape stipple)
                           +:+ ", mask " +:+ repr_shape (shape mask))), σ).
Proof.
  intros Hs Hm Hne.
  unfold create_masked_stipple, mbind, py_bind, load. rewrite Hs, Hm.
  rewrite bool_decide_eq_true_2 by exact Hne. reflexivity.
Qed.

Lemma shape_mismatch_raises_witness :
  create_masked_stipple 1 2 0.5 mismatched_world =
    (Raised (ValueError "Image shapes don't match: stipple (2, 2), mask (2, 3)"),
     mismatched_world).
Proof.
  apply (shape_mismatch_raises mismatched_world 1 2 0.5 sample_stipple wide_mask);
    [reflexivity|reflexivity|discriminate].
Defined.

(** C5 (as the spec words it, refuted).  The stipple field of [stray_world]
    holds 2.0 and -1.0, outside [0, 1] and outside {0.0, 1.0}; no error is
    raised and both values come back in the result. *)
Lemma stray_values_accepted :
  let '(outcome, σ') := create_masked_stipple 1 2 default_threshold stray_world in
  outcome = Returned 3%positive ∧
  heap σ' !! 3%positive = Some (NdArray float64 [1; 2]%nat [2; -1]%float).
Proof. vm_compute. split; reflexivity. Qed.

(** C5 (amended).  [create_masked_stipple] validates no cell value: for two
    rasters of one shape, whatever their cells hold, it returns a raster, and a
    stipple cell that is not masked is handed back as it is, in range or not. *)
Theorem values_not_validated σ s m thr stipple mask :
  heap σ !! s = Some stipple →
  heap σ !! m = Some mask →
  shape stipple = shape mask →
  ∃ out σ' result,
    create_masked_stipple s m thr σ = (Returned out, σ') ∧
    heap σ' !! out = Some result ∧
    ∀ (i : nat) sv mv,
      data stipple !! i = Some sv →
      data mask !! i = Some mv →
      (mv <? thr)%float = false →
      data result !! i = Some sv.
Proof.
  intros Hs Hm Hshape.
  eexists _, _, (masked stipple mask thr).
  split; [apply (create_masked_stipple_returns σ s m thr stipple mask Hs Hm Hshape)|].
  cbn [heap]. rewrite lookup_insert_eq. split; [reflexivity|].
  intros i sv mv Hsv Hmv Hkeep.
  rewrite masked_lookup, Hsv, Hmv. cbn.
  rewrite (cast_ltb_false _ _ _ Hkeep). reflexivity.
Qed.

Lemma values_not_validated_witness :
  ∃ out σ' result,
    create_masked_stipple 1 2 0.5 stray_world = (Returned out, σ') ∧
    heap σ' !! out = Some result ∧
    ∀ (i : nat) sv mv,
      data stray_stipple !! i = Some sv →
      data stray_mask !! i = Some mv →
      (mv <? 0.5)%float = false →
      data result !! i = Some sv.
Proof.
  apply (values_not_validated stray_world 1 2 0.5 stray_stipple stray_mask);
    reflexivity.
Defined.

(** C6. Masking is idempotent under a fixed mask: applying
    [create_masked_stipple] to its own result, with the same mask and
    threshold, returns a raster equal to that result. *)
Theorem masking_idempotent σ s m thr stipple mask :
  heap σ !! s = Some stipple →
  heap σ !! m = Some mask →
  shape stipple = shape mask →
  ∃ once σ1 twice σ2 result,
    create_masked_stipple s m thr σ = (Returned once, σ1) ∧
    create_masked_stipple once m thr σ1 = (Returned twice, σ2) ∧
    heap σ1 !! once = Some result ∧
    heap σ2 !! once = Some result ∧
    heap σ2 !! twice = Some result.
Proof.
  intros Hs Hm Hshape.
  pose proof (create_masked_stipple_returns σ s m thr stipple mask Hs Hm Hshape) as H1.
  set (once := fresh (dom (heap σ))) in *.
  set (σ1 := World (<[once := masked stipple mask thr]> (heap σ))
                   (stdout σ ++ masker_report stipple mask thr)) in *.
  assert (heap σ1 !! once = Some (masked stipple mask thr)) as Ho
    by (cbn [heap σ1]; apply lookup_insert_eq).
  assert (heap σ1 !! m = Some mask) as Hm1.
  { cbn [heap σ1]. rewrite lookup_insert_ne; [exact Hm|].
    eapply fresh_differs. exact Hm. }
  pose proof (create_masked_stipple_returns σ1 once m thr _ mask Ho Hm1 Hshape) as H2.
  rewrite masked_idempotent in H2.
  eexists once, σ1, _, _, (masked stipple mask thr).
  split; [exact H1|]. split; [exact H2|]. split; [exact Ho|].
  cbn [heap]. rewrite lookup_insert_eq. split; [|reflexivity].
  rewrite lookup_insert_ne; [exact Ho|].
  eapply fresh_differs. exact Ho.
Qed.

Lemma masking_idempotent_witness :
  ∃ once σ1 twice σ2 result,
    create_masked_stipple 1 2 0.5 sample_world = (Returned once, σ1) ∧
    create_masked_stipple once 2 0.5 σ1 = (Returned twice, σ2) ∧
    heap σ1 !! once = Some result ∧
    heap σ2 !! once = Some result ∧
    heap σ2 !! twice = Some result.
Proof.
  apply (masking_idempotent sample_world 1 2 0.5 sample_stipple sample_mask);
    reflexivity.
Defined.

(** C8. The raster [create_masked_stipple] returns is a new object: its
    reference is not that of the stipple raster nor of any object alive at the
    call, every object alive at the call holds afterwards what it held before
    (the stipple raster among them), and a later write through the returned
    reference leaves the stipple raster as it was. *)
Theorem result_not_aliased σ s m thr stipple mask :
  heap σ !! s = Some stipple →
  heap σ !! m = Some mask →
  shape stipple = shape mask →
  ∃ out σ',
    create_masked_stipple s m thr σ = (Returned out, σ') ∧
    out ≠ s ∧
    heap σ !! out = None ∧
    heap σ' !! s = Some stipple ∧
    (∀ l a, heap σ !! l = Some a → heap σ' !! l = Some a) ∧
    (∀ a σ'', store out a σ' = (Returned (), σ'') → heap σ'' !! s = Some stipple).
Proof.
  intros Hs Hm Hshape.
  eexists _, _.
  split; [apply (create_masked_stipple_returns σ s m thr stipple mask Hs Hm Hshape)|].
  assert (∀ l a, heap σ !! l = Some a → fresh (dom (heap σ)) ≠ l) as Hfresh
    by (intros l a; apply fresh_differs).
  cbn [heap]. repeat split.
  - eapply Hfresh, Hs.
  - apply fresh_not_allocated.
  - rewrite lookup_insert_ne; [exact Hs|eapply Hfresh, Hs].
  - intros l a Hl. rewrite lookup_insert_ne; [exact Hl|eapply Hfresh, Hl].
  - intros a σ'' Hstore. unfold store in Hstore. injection Hstore as <-.
    cbn [heap]. rewrite insert_insert_eq.
    rewrite lookup_insert_ne; [exact Hs|eapply Hfresh, Hs].
Qed.

Lemma result_not_aliased_witness :
  ∃ out σ',
    create_masked_stipple 1 2 0.5 sample_world = (Returned out, σ') ∧
    out ≠ 1%positive ∧
    heap sample_world !! out = None ∧
    heap σ' !! 1%positive = Some sample_stipple ∧
    (∀ l a, heap sample_world !! l = Some a → heap σ' !! l = Some a) ∧
    (∀ a σ'', store out a σ' = (Returned (), σ'') →
              heap σ'' !! 1%positive = Some sample_stipple).
Proof.
  apply (result_not_aliased sample_world 1 2 0.5 sample_stipple sample_mask);
    reflexivity.
Defined.

(** * Properties of the glyph generator *)

Lemma bind_returned {A B} (m : py A) (k : A → py B) σ a σ' :
  m σ = (Returned a, σ') → (m ≫= k) σ = k a σ'.
Proof. intros H. unfold mbind, py_bind. rewrite H. reflexivity. Qed.

Lemma bind_raised {A B} (m : py A) (k : A → py B) σ e σ' :
  m σ = (Raised e, σ') → (m ≫= k) σ = (Raised e, σ').
Proof. intros H. unfold mbind, py_bind. rewrite H. reflexivity. Qed.

Lemma lift_float_of_int_returns (n : Z) σ :
  0 <= n < 2 ^ 31 → ∃ x, lift (float_of_int n) σ = (Returned x, σ).
Proof.
  intros Hn. destruct (float_of_int_small n 31 ltac:(lia) Hn) as (x & Hx & _).
  exists x. rewrite Hx. reflexivity.
Qed.

Lemma mul_int_float_returns (n : Z) (x : float) σ :
  0 <= n < 2 ^ 31 → ∃ y, mul_int_float n x σ = (Returned y, σ).
Proof.
  intros Hn. destruct (lift_float_of_int_returns n σ Hn) as (a & Ha).
  eexists. unfold mul_int_float. rewrite (bind_returned _ _ _ _ _ Ha). reflexivity.
Qed.

Lemma py_sub_int_returns (n : Z) (b : pynum) σ :
  0 <= n < 2 ^ 31 → ∃ v, py_sub (PyInt n) b σ = (Returned v, σ).
Proof.
  intros Hn. destruct b as [k|y]; cbn [py_sub]; [eexists; reflexivity|].
  destruct (lift_float_of_int_returns n σ Hn) as (a & Ha).
  eexists. rewrite (bind_returned _ _ _ _ _ Ha). reflexivity.
Qed.

Lemma py_add_int_returns (n : Z) (b : pynum) σ :
  0 <= n < 2 ^ 31 → ∃ v, py_add (PyInt n) b σ = (Returned v, σ).
Proof.
  intros Hn. destruct b as [k|y]; cbn [py_add]; [eexists; reflexivity|].
  destruct (lift_float_of_int_returns n σ Hn) as (a & Ha).
  eexists. rewrite (bind_returned _ _ _ _ _ Ha). reflexivity.
Qed.

(** Arithmetic leaves the state alone, whether it returns or raises. *)
Lemma lift_pure {A} (r : exn + A) σ : ∃ o, lift r σ = (o, σ).
Proof. destruct r; eexists; reflexivity. Qed.

Lemma py_sub_pure (a b : pynum) σ : ∃ o, py_sub a b σ = (o, σ).
Proof.
  destruct a as [m|x], b as [n|y]; cbn [py_sub]; try (eexists; reflexivity).
  - destruct (lift_pure (float_of_int m) σ) as ([v|e] & H).
    + eexists. rewrite (bind_returned _ _ _ _ _ H). reflexivity.
    + eexists. rewrite (bind_raised _ _ _ _ _ H). reflexivity.
  - destruct (lift_pure (float_of_int n) σ) as ([v|e] & H).
    + eexists. rewrite (bind_returned _ _ _ _ _ H). reflexivity.
    + eexists. rewrite (bind_raised _ _ _ _ _ H). reflexivity.
Qed.

Lemma Image_new_returns (width height : Z) (color : Byte.byte) σ :
  0 <= width → 0 <= height →
  Image_new width height color σ =
    (Returned (Image (Z.to_nat width) (Z.to_nat height)
                     (replicate (Z.to_nat height * Z.to_nat width) color)), σ).
Proof.
  intros Hw Hh. unfold Image_new.
  destruct (Z.ltb_spec width 0); [lia|]. destruct (Z.ltb_spec height 0); [lia|].
  reflexivity.
Qed.

Lemma canvas_new (height width : Z) (color : Byte.byte) :
  canvas height width
         (Image (Z.to_nat width) (Z.to_nat height)
                (replicate (Z.to_nat height * Z.to_nat width) color)).
Proof. repeat split. cbn. apply length_replicate. Qed.

Lemma canvas_redraw (height width : Z) (img : image) pixel :
  canvas height width img → canvas height width (redraw img pixel).
Proof.
  intros (Hh & Hw & Hl). repeat split; cbn; try assumption.
  rewrite length_imap. exact Hl.
Qed.

Section GlyphProperties.
Context (P : pillow).

Lemma text_extent_returns (height width : Z) (letter : string) (f : font P) σ :
  valid_dimension height → valid_dimension width →
  ∃ extent, text_extent P height width letter f σ = (Returned extent, σ).
Proof.
  unfold valid_dimension. intros Hh Hw.
  destruct (mul_int_float_returns width 0x1.3333333333333p-1 σ ltac:(lia)) as (tw & Htw).
  destruct (mul_int_float_returns height 0x1.999999999999ap-1 σ ltac:(lia)) as (th & Hth).
  assert (∀ σ', σ' = σ →
            (text_width ← mul_int_float width 0x1.3333333333333p-1;
             text_height ← mul_int_float height 0x1.999999999999ap-1;
             mret (PyFloat text_width, PyFloat text_height)) σ'
            = (Returned (PyFloat tw, PyFloat th), σ)) as Hhandler.
  { intros σ' ->. rewrite (bind_returned _ _ _ _ _ Htw).
    rewrite (bind_returned _ _ _ _ _ Hth). reflexivity. }
  unfold text_extent, try_except.
  destruct (textbbox P f letter) as [[[[x_min y_min] x_max] y_max]|].
  - destruct (py_sub_pure x_max x_min σ) as ([text_width|e] & H1).
    + rewrite (bind_returned _ _ _ _ _ H1).
      destruct (py_sub_pure y_max y_min σ) as ([text_height|e] & H2).
      * rewrite (bind_returned _ _ _ _ _ H2). eexists. reflexivity.
      * rewrite (bind_raised _ _ _ _ _ H2). eexists. apply Hhandler. reflexivity.
    + rewrite (bind_raised _ _ _ _ _ H1). eexists. apply Hhandler. reflexivity.
  - cbn [raise]. eexists. apply Hhandler. reflexivity.
Qed.

Lemma draw_letter_returns (img : image) (height width : Z) (letter : string)
    (f : font P) σ :
  valid_dimension height → valid_dimension width →
  canvas height width img →
  ∃ drawn,
    canvas height width drawn ∧
    draw_letter P img height width letter f σ =
      (Returned (fresh (dom (heap σ))),
       World (<[fresh (dom (heap σ)) := array_of_image drawn]> (heap σ))
             (stdout σ ++ [CreatedBlockLetter letter height width])).
Proof.
  intros Hh Hw Hc.
  destruct (text_extent_returns height width letter f σ Hh Hw) as ([tw th] & He).
  unfold valid_dimension in *.
  destruct (py_sub_int_returns width tw σ ltac:(lia)) as (dx & Hdx).
  destruct (py_sub_int_returns height th σ ltac:(lia)) as (dy & Hdy).
  eexists. split; [apply canvas_redraw; exact Hc|].
  unfold draw_letter. rewrite (bind_returned _ _ _ _ _ He). cbn beta iota.
  rewrite (bind_returned _ _ _ _ _ Hdx), (bind_returned _ _ _ _ _ Hdy).
  reflexivity.
Qed.

Lemma _create_simple_block_letter_returns (height width : Z) (letter : string) σ :
  valid_dimension height → valid_dimension width →
  ∃ drawn,
    canvas height width drawn ∧
    (String.eqb (upper letter) "S" = false →
     im_pixels drawn = replicate (Z.to_nat height * Z.to_nat width) Byte.xff) ∧
    _create_simple_block_letter P height width letter σ =
      (Returned (fresh (dom (heap σ))),
       World (<[fresh (dom (heap σ)) := array_of_image drawn]> (heap σ)) (stdout σ)).
Proof.
  unfold valid_dimension. intros Hh Hw.
  destruct (mul_int_float_returns width 0x1.3333333333333p-1 σ ltac:(lia)) as (lw & Hlw).
  destruct (mul_int_float_returns height 0x1.999999999999ap-1 σ ltac:(lia)) as (lh & Hlh).
  assert (0 <= width / 2 < 2 ^ 31) as Hcx.
  { split; [apply Z.div_pos; lia|]. apply Z.div_lt_upper_bound; lia. }
  assert (0 <= height / 2 < 2 ^ 31) as Hcy.
  { split; [apply Z.div_pos; lia|]. apply Z.div_lt_upper_bound; lia. }
  unfold _create_simple_block_letter.
  rewrite (bind_returned _ _ _ _ _ (Image_new_returns width height Byte.xff σ
                                      ltac:(lia) ltac:(lia))).
  rewrite (bind_returned _ _ _ _ _ Hlw), (bind_returned _ _ _ _ _ Hlh).
  destruct (String.eqb (upper letter) "S").
  - destruct (py_sub_int_returns (width / 2) (PyFloat (float_floordiv2 lw)) σ Hcx)
      as (x0 & Hx0).
    destruct (py_sub_int_returns (height / 2) (PyFloat (float_floordiv2 lh)) σ Hcy)
      as (y0 & Hy0).
    destruct (py_add_int_returns (width / 2) (PyFloat (float_floordiv2 lw)) σ Hcx)
      as (x1 & Hx1).
    destruct (py_add_int_returns (height / 2) (PyFloat (float_floordiv2 lh)) σ Hcy)
      as (y1 & Hy1).
    eexists. split; [|split; [discriminate|]].
    2:{ erewrite bind_returned.
        2:{ rewrite (bind_returned _ _ _ _ _ Hx0), (bind_returned _ _ _ _ _ Hy0).
            rewrite (bind_returned _ _ _ _ _ Hx1), (bind_returned _ _ _ _ _ Hx0).
            rewrite (bind_returned _ _ _ _ _ Hx1), (bind_returned _ _ _ _ _ Hy1).
            reflexivity. }
        reflexivity. }
    do 2 apply canvas_redraw. apply canvas_new.
  - eexists. split; [apply canvas_new|]. split; reflexivity.
Qed.

(** Every run for valid dimensions and a ratio from 0.0 to 1.0 returns a new
    array made from a canvas of the extent asked for. *)
Lemma create_block_letter_s_returns (height width : Z) (letter : string)
    (font_size_ratio : float) σ :
  valid_dimension height → valid_dimension width →
  (0 <=? font_size_ratio)%float = true → (font_size_ratio <=? 1)%float = true →
  ∃ font_size drawn,
    font_size_of height font_size_ratio σ = (Returned font_size, σ) ∧
    canvas height width drawn ∧
    create_block_letter_s P height width letter font_size_ratio σ =
      (Returned (fresh (dom (heap σ))),
       World (<[fresh (dom (heap σ)) := array_of_image drawn]> (heap σ))
             (stdout σ ++ glyph_report P font_size letter height width)).
Proof.
  intros Hh Hw H0 H1.
  destruct (font_size_of_returns height font_size_ratio σ
              ltac:(unfold valid_dimension in Hh; lia) H0 H1)
    as (z & Hz & _).
  exists z. unfold create_block_letter_s, glyph_report.
  rewrite (bind_returned _ _ _ _ _ (Image_new_returns width height Byte.xff σ
             ltac:(unfold valid_dimension in Hw; lia)
             ltac:(unfold valid_dimension in Hh; lia))).
  rewrite (bind_returned _ _ _ _ _ Hz).
  pose proof (canvas_new height width Byte.xff) as Hc.
  destruct (find_font P font_paths z) as [[font_path f]|].
  - destruct (draw_letter_returns _ height width letter f
                (World (heap σ) (stdout σ ++ [UsingFont font_path])) Hh Hw Hc)
      as (drawn & Hd & Hrun).
    exists drawn. split; [exact Hz|]. split; [exact Hd|].
    erewrite bind_returned by reflexivity. rewrite Hrun. cbn [heap stdout].
    rewrite <- app_assoc. reflexivity.
  - destruct (load_default P) as [f|].
    + destruct (draw_letter_returns _ height width letter f
                  (World (heap σ) (stdout σ ++ [UsingDefaultFont])) Hh Hw Hc)
        as (drawn & Hd & Hrun).
      exists drawn. split; [exact Hz|]. split; [exact Hd|].
      erewrite bind_returned by reflexivity. rewrite Hrun. cbn [heap stdout].
      rewrite <- app_assoc. reflexivity.
    + destruct (_create_simple_block_letter_returns height width letter
                  (World (heap σ) (stdout σ ++ [CreatingWithPrimitives])) Hh Hw)
        as (drawn & Hd & _ & Hrun).
      exists drawn. split; [exact Hz|]. split; [exact Hd|].
      erewrite bind_returned by reflexivity. rewrite Hrun. reflexivity.
Qed.

End GlyphProperties.

Lemma unit_of_byte_range (b : Byte.byte) :
  (0 <=? unit_of_byte b)%float = true ∧ (unit_of_byte b <=? 1)%float = true.
Proof. destruct b; vm_compute; split; reflexivity. Qed.

Lemma array_of_image_canvas (height width : Z) (img : image) :
  canvas height width img →
  shape (array_of_image img) = [Z.to_nat height; Z.to_nat width] ∧
  well_formed (array_of_image img).
Proof.
  intros (Hh & Hw & Hl). unfold array_of_image, well_formed, size. cbn.
  rewrite Hh, Hw. split; [reflexivity|]. rewrite length_fmap. lia.
Qed.

Lemma array_of_image_range (img : image) (i : nat) (v : float) :
  data (array_of_image img) !! i = Some v →
  (0 <=? v)%float = true ∧ (v <=? 1)%float = true.
Proof.
  unfold array_of_image. cbn [data]. rewrite list_lookup_fmap.
  destruct (im_pixels img !! i) as [b|]; [|discriminate].
  cbn. intros [= <-]. apply unit_of_byte_range.
Qed.

(** * Claims about [create_block_letter_s] *)

(** C3. For valid (positive, representable) height and width and a size ratio
    in the documented range from 0.0 to 1.0, [create_block_letter_s] returns
    an array of shape exactly [(height, width)], its buffer complete, whose
    every cell lies in the closed interval from 0 to 1. *)
Theorem glyph_shape_and_range (P : pillow) (height width : Z) (letter : string)
    (font_size_ratio : float) σ :
  valid_dimension height → valid_dimension width →
  (0 <=? font_size_ratio)%float = true → (font_size_ratio <=? 1)%float = true →
  ∃ mask_ref σ' mask,
    create_block_letter_s P height width letter font_size_ratio σ
      = (Returned mask_ref, σ') ∧
    heap σ' !! mask_ref = Some mask ∧
    shape mask = [Z.to_nat height; Z.to_nat width] ∧
    well_formed mask ∧
    ∀ r c, (r < Z.to_nat height)%nat → (c < Z.to_nat width)%nat →
      ∃ v, cell mask r c = Some v ∧
           (0 <=? v)%float = true ∧ (v <=? 1)%float = true.
Proof.
  intros Hh Hw H0 H1.
  destruct (create_block_letter_s_returns P height width letter font_size_ratio σ
              Hh Hw H0 H1) as (z & drawn & _ & Hc & Hrun).
  destruct (array_of_image_canvas height width drawn Hc) as [Hshape Hwf].
  eexists _, _, (array_of_image drawn). split; [exact Hrun|].
  cbn [heap]. rewrite lookup_insert_eq. repeat split; try assumption.
  intros r c Hr Hcol.
  destruct (cell_lookup (array_of_image drawn) _ _ r c Hshape Hwf Hr Hcol)
    as (v & Hcell & Hdata).
  exists v. split; [exact Hcell|]. eapply array_of_image_range, Hdata.
Qed.

Lemma glyph_shape_and_range_witness :
  ∃ mask_ref σ' mask,
    create_block_letter_s dejavu_pillow 50 50 default_letter default_font_size_ratio
                          empty_world = (Returned mask_ref, σ') ∧
    heap σ' !! mask_ref = Some mask ∧
    shape mask = [50; 50]%nat ∧
    well_formed mask ∧
    ∀ r c, (r < 50)%nat → (c < 50)%nat →
      ∃ v, cell mask r c = Some v ∧
           (0 <=? v)%float = true ∧ (v <=? 1)%float = true.
Proof.
  apply (glyph_shape_and_range dejavu_pillow 50 50 default_letter
           default_font_size_ratio empty_world);
    unfold valid_dimension; first [reflexivity | lia].
Defined.

(** C4 (as the spec words it, refuted).  For height 3 and the default ratio
    0.9 the product is 2.7: the source's [int] gives 2, rounding to nearest
    gives 3. *)
Lemma font_size_is_not_rounded :
  font_size_of 3 default_font_size_ratio empty_world = (Returned 2, empty_world) ∧
  font_size_as_specified 3 default_font_size_ratio empty_world
    = (Returned 3, empty_world).
Proof. split; vm_compute; reflexivity. Qed.

(** C4 (amended).  For every height and size ratio the nominal glyph size
    is [int(height * font_size_ratio)]: the float product truncated toward
    zero ([int] raising when the height is too large for a float or the
    product is NaN or infinite); and for valid dimensions and a ratio from 0.0
    to 1.0 that integer is the size the fonts are looked up at. *)
Theorem font_size_truncates (height : Z) (font_size_ratio : float) σ :
  ((∃ scaled z,
      mul_int_float height font_size_ratio σ = (Returned scaled, σ) ∧
      font_size_of height font_size_ratio σ = (Returned z, σ) ∧
      truncated (Prim2SF scaled) z) ∨
   (∃ e,
      font_size_of height font_size_ratio σ = (Raised e, σ) ∧
      (float_of_int height = inl e ∨
       ∃ scaled,
         mul_int_float height font_size_ratio σ = (Returned scaled, σ) ∧
         (Prim2SF scaled = S754_nan ∨ ∃ s, Prim2SF scaled = S754_infinity s)))) ∧
  ∀ (P : pillow) (width : Z) (letter : string),
    valid_dimension height → valid_dimension width →
    (0 <=? font_size_ratio)%float = true → (font_size_ratio <=? 1)%float = true →
    ∃ z mask_ref σ',
      font_size_of height font_size_ratio σ = (Returned z, σ) ∧
      0 <= z ∧
      create_block_letter_s P height width letter font_size_ratio σ
        = (Returned mask_ref, σ') ∧
      stdout σ' = stdout σ ++ glyph_report P z letter height width.
Proof.
  split.
  - unfold font_size_of, mul_int_float.
    destruct (float_of_int height) as [e|a] eqn:Ha.
    + right. exists e. split; [reflexivity|left; reflexivity].
    + destruct (int_of_float (a * font_size_ratio)) as [e|z] eqn:Hz.
      * right. exists e. split; [cbn; unfold mbind, py_bind; cbn; rewrite Hz; reflexivity|].
        right. exists (a * font_size_ratio)%float. split; [reflexivity|].
        eapply int_of_float_raises, Hz.
      * left. exists (a * font_size_ratio)%float, z.
        split; [reflexivity|].
        split; [cbn; unfold mbind, py_bind; cbn; rewrite Hz; reflexivity|].
        apply int_of_float_truncated, Hz.
  - intros P width letter Hh Hw H0 H1.
    destruct (font_size_of_returns height font_size_ratio σ
                ltac:(unfold valid_dimension in Hh; lia) H0 H1) as (z & Hz & Hpos).
    destruct (create_block_letter_s_returns P height width letter font_size_ratio σ
                Hh Hw H0 H1) as (z' & drawn & Hz' & _ & Hrun).
    rewrite Hz in Hz'. injection Hz' as <-.
    exists z. eexists _, _. repeat split; try eassumption. reflexivity.
Qed.

Lemma find_font_some (P : pillow) (paths : list string) (font_size : Z) font_path f :
  find_font P paths font_size = Some (font_path, f) →
  font_path ∈ paths ∧ path_exists P font_path = true ∧
  truetype P font_path font_size
           (if endswith font_path ".ttc" then Some 0 else None) = Some f.
Proof.
  induction paths as [|p rest IH]; cbn [find_font]; [discriminate|].
  destruct (path_exists P p) eqn:Hex.
  - destruct (truetype P p font_size _) as [g|] eqn:Htt.
    + intros [= <- <-]. repeat split; [left|exact Hex|exact Htt].
    + intros H. destruct (IH H) as (Hin & Hrest). split; [right; exact Hin|exact Hrest].
  - intros H. destruct (IH H) as (Hin & Hrest). split; [right; exact Hin|exact Hrest].
Qed.

Lemma find_font_none (P : pillow) (paths : list string) (font_size : Z) :
  (∀ font_path, font_path ∈ paths →
     path_exists P font_path = false ∨
     truetype P font_path font_size
              (if endswith font_path ".ttc" then Some 0 else None) = None) →
  find_font P paths font_size = None.
Proof.
  induction paths as [|p rest IH]; intros Hall; cbn [find_font]; [reflexivity|].
  assert (find_font P rest font_size = None) as Hrest.
  { apply IH. intros q Hq. apply Hall. right. exact Hq. }
  destruct (Hall p ltac:(left)) as [-> | Htt]; [exact Hrest|].
  rewrite Htt. destruct (path_exists P p); exact Hrest.
Qed.

(** C9. For valid height and width (and a ratio in the documented range)
    [create_block_letter_s] returns on every machine, whatever fonts it has:
    it never raises.  A font path that is absent or fails to load is skipped;
    when none loads the default font is used; when that fails too the letter
    is drawn with primitives. *)
Theorem font_failures_never_raise (P : pillow) (height width : Z) (letter : string)
    (font_size_ratio : float) σ :
  valid_dimension height → valid_dimension width →
  (0 <=? font_size_ratio)%float = true → (font_size_ratio <=? 1)%float = true →
  ∃ mask_ref σ' font_size,
    create_block_letter_s P height width letter font_size_ratio σ
      = (Returned mask_ref, σ') ∧
    stdout σ' = stdout σ ++ glyph_report P font_size letter height width ∧
    ((∀ font_path, font_path ∈ font_paths →
        path_exists P font_path = false ∨
        truetype P font_path font_size
                 (if endswith font_path ".ttc" then Some 0 else None) = None) →
     (load_default P ≠ None →
      stdout σ' = stdout σ ++ [UsingDefaultFont;
                               CreatedBlockLetter letter height width]) ∧
     (load_default P = None → stdout σ' = stdout σ ++ [CreatingWithPrimitives])).
Proof.
  intros Hh Hw H0 H1.
  destruct (create_block_letter_s_returns P height width letter font_size_ratio σ
              Hh Hw H0 H1) as (z & drawn & _ & _ & Hrun).
  eexists _, _, z. split; [exact Hrun|]. cbn [stdout]. split; [reflexivity|].
  intros Hall. unfold glyph_report. rewrite (find_font_none P font_paths z Hall).
  destruct (load_default P); split; congruence.
Qed.

Lemma font_failures_never_raise_witness :
  ∃ mask_ref σ' font_size,
    create_block_letter_s bare_pillow 50 50 default_letter default_font_size_ratio
                          empty_world = (Returned mask_ref, σ') ∧
    stdout σ' = stdout empty_world
                  ++ glyph_report bare_pillow font_size default_letter 50 50 ∧
    ((∀ font_path, font_path ∈ font_paths →
        path_exists bare_pillow font_path = false ∨
        truetype bare_pillow font_path font_size
                 (if endswith font_path ".ttc" then Some 0 else None) = None) →
     (load_default bare_pillow ≠ None →
      stdout σ' = stdout empty_world
                    ++ [UsingDefaultFont; CreatedBlockLetter default_letter 50 50]) ∧
     (load_default bare_pillow = None →
      stdout σ' = stdout empty_world ++ [CreatingWithPrimitives])).
Proof.
  apply (font_failures_never_raise bare_pillow 50 50 default_letter
           default_font_size_ratio empty_world);
    unfold valid_dimension; first [reflexivity | lia].
Defined.

(** C10. For a letter whose upper-case form is not "S" the fallback
    [_create_simple_block_letter] draws nothing: it returns, without raising,
    a raster of the shape asked for whose every cell is exactly 1.0. *)
Theorem fallback_blank_unless_S (P : pillow) (height width : Z) (letter : string) σ :
  valid_dimension height → valid_dimension width →
  upper letter ≠ "S" →
  ∃ ref σ',
    _create_simple_block_letter P height width letter σ = (Returned ref, σ') ∧
    heap σ' !! ref =
      Some (NdArray float32 [Z.to_nat height; Z.to_nat width]
                    (replicate (Z.to_nat height * Z.to_nat width) 1%float)) ∧
    stdout σ' = stdout σ.
Proof.
  intros Hh Hw Hne.
  destruct (_create_simple_block_letter_returns P height width letter σ Hh Hw)
    as (drawn & (Hdh & Hdw & _) & Hblank & Hrun).
  eexists _, _. split; [exact Hrun|]. cbn [heap stdout]. split; [|reflexivity].
  rewrite lookup_insert_eq. f_equal. unfold array_of_image.
  rewrite Hdh, Hdw, Hblank by (apply String.eqb_neq; exact Hne).
  rewrite fmap_replicate. reflexivity.
Qed.

Lemma fallback_blank_unless_S_witness :
  ∃ ref σ',
    _create_simple_block_letter bare_pillow 3 4 "x" empty_world = (Returned ref, σ') ∧
    heap σ' !! ref = Some (NdArray float32 [3; 4]%nat (replicate 12 1%float)) ∧
    stdout σ' = stdout empty_world.
Proof.
  apply (fallback_blank_unless_S bare_pillow 3 4 "x" empty_world);
    unfold valid_dimension; first [lia | discriminate].
Defined.

(** * The end-to-end scenario *)

Lemma np_sum_cons (b : bool) (bs : list bool) (t : np_type) (s : list nat) :
  np_sum (NdArray t s (b :: bs)) = ((if b then 1 else 0) + np_sum (NdArray t s bs))%nat.
Proof.
  unfold np_sum. cbn [data]. rewrite filter_cons.
  destruct b; [rewrite decide_True by reflexivity|rewrite decide_False by discriminate];
    reflexivity.
Qed.






(** A grey level [k / 255] is a float32 value, and so is the default
    threshold. *)
Lemma to_float32_unit_of_byte (b : Byte.byte) :
  to_float32 (unit_of_byte b) = unit_of_byte b.
Proof. destruct b; vm_compute; reflexivity. Qed.


(** Comparing a generated mask with a threshold: the cells as they are, the
    threshold rounded to float32. *)
Lemma less_array_of_image (img : image) (threshold : float) :
  data (less (array_of_image img) threshold)
  = (λ v, v <? to_float32 threshold)%float <$> data (array_of_image img).
Proof.
  unfold less, array_of_image. cbn [dtype data cast].
  rewrite <- !list_fmap_compose. apply list_fmap_ext. intros i b _. cbn.
  rewrite to_float32_unit_of_byte. reflexivity.
Qed.




(** * Further properties *)

(** * More on [create_masked_stipple] *)

Lemma imap_where_nil (x : float) (vs : list float) :
  imap (λ i v, if default false (@nil bool !! i) then x else v) vs = vs.
Proof.
  apply list_eq. intros i. rewrite list_lookup_imap.
  destruct (vs !! i); reflexivity.
Qed.

Lemma imap_where_cons (b : bool) (bs : list bool) (x v : float) (vs : list float) :
  imap (λ i v, if default false ((b :: bs) !! i) then x else v) (v :: vs)
  = (if b then x else v) :: imap (λ i v, if default false (bs !! i) then x else v) vs.
Proof. reflexivity. Qed.

Lemma np_sum_nil (t : np_type) (s : list nat) : np_sum (NdArray t s []) = 0%nat.
Proof. reflexivity. Qed.

(** Samples before = samples after + samples removed, list by list. *)
Lemma count_accounting (ss : list float) (bs : list bool) (t1 t2 : np_type)
    (s1 s2 : list nat) :
  (np_sum (NdArray t1 s1 ((λ v, v =? 0)%float <$> ss))
   = np_sum (NdArray t2 s2
       ((λ v, v =? 0)%float
          <$> imap (λ i v, if default false (bs !! i) then 1%float else v) ss))
     + length (filter (λ '(sv, below), ((sv =? 0)%float && below) = true)
                      (zip ss bs)))%nat.
Proof.
  revert bs. induction ss as [|sv ss IH]; intros bs; [reflexivity|].
  destruct bs as [|b bs].
  - cbn [fmap list_fmap zip zip_with filter list_filter length].
    rewrite imap_where_nil, Nat.add_0_r. reflexivity.
  - specialize (IH bs).
    destruct b, (sv =? 0)%float eqn:Hsv.
    all: rewrite imap_where_cons;
      cbn [fmap list_fmap zip zip_with]; rewrite !np_sum_cons, ?Hsv.
    + rewrite filter_cons_True by (cbn; rewrite Hsv; reflexivity).
      change (1 =? 0)%float with false. cbv iota. cbn [length]. lia.
    + rewrite filter_cons_False by (cbn; rewrite Hsv; discriminate).
      change (1 =? 0)%float with false. cbv iota. lia.
    + rewrite filter_cons_False by (cbn; rewrite Hsv; discriminate). cbv iota. lia.
    + rewrite filter_cons_False by (cbn; rewrite Hsv; discriminate). cbv iota. lia.
Qed.

(** X1. Masking only removes samples: the cells equal to 0.0 before are those
    equal to 0.0 after plus those that held 0.0 where the comparison of the
    mask with the threshold selects the cell; so the count never grows. *)
Theorem masking_accounts_for_samples σ s m thr stipple mask :
  heap σ !! s = Some stipple →
  heap σ !! m = Some mask →
  shape stipple = shape mask →
  ∃ out σ' result,
    create_masked_stipple s m thr σ = (Returned out, σ') ∧
    heap σ' !! out = Some result ∧
    stipple_count stipple
      = (stipple_count result + removed_count stipple mask thr)%nat ∧
    (stipple_count result <= stipple_count stipple)%nat.
Proof.
  intros Hs Hm Hshape.
  eexists _, _, (masked stipple mask thr).
  split; [apply (create_masked_stipple_returns σ s m thr stipple mask Hs Hm Hshape)|].
  cbn [heap]. rewrite lookup_insert_eq. split; [reflexivity|].
  assert (stipple_count stipple
          = (stipple_count (masked stipple mask thr)
             + removed_count stipple mask thr)%nat) as Hacc.
  { unfold stipple_count, removed_count, masked, setitem_where, equal, less.
    cbn [shape data]. apply count_accounting. }
  split; [exact Hacc|lia].
Qed.

(** Masked cells and remaining samples are different cells. *)
Lemma count_disjoint (bs : list bool) (vs : list float) (t1 t2 : np_type)
    (s1 s2 : list nat) :
  length bs = length vs →
  (np_sum (NdArray t1 s1 bs)
   + np_sum (NdArray t2 s2
       ((λ v, v =? 0)%float
          <$> imap (λ i v, if default false (bs !! i) then 1%float else v) vs))
   <= length vs)%nat.
Proof.
  revert bs. induction vs as [|v vs IH]; intros [|b bs] Hlen; try discriminate.
  - cbn. lia.
  - rewrite imap_where_cons. cbn [fmap list_fmap length]. rewrite !np_sum_cons.
    specialize (IH bs ltac:(cbn in Hlen; lia)).
    destruct b; [change (1 =? 0)%float with false|destruct (v =? 0)%float];
      cbv iota; lia.
Qed.

(** X2. The three lines the masker prints: the masked pixel count and the
    remaining sample count it reports never add up to more than the image
    size it divides by. *)
Theorem masker_report_consistent σ s m thr stipple mask :
  heap σ !! s = Some stipple →
  heap σ !! m = Some mask →
  shape stipple = shape mask →
  well_formed stipple →
  well_formed mask →
  ∃ out σ' pixels remaining,
    create_masked_stipple s m thr σ = (Returned out, σ') ∧
    stdout σ' = stdout σ ++ [AppliedMask;
                             MaskedAreas pixels (size mask);
                             RemainingStipples remaining] ∧
    (pixels + remaining <= size mask)%nat.
Proof.
  intros Hs Hm Hshape Hws Hwm.
  eexists _, _, _, _.
  split; [apply (create_masked_stipple_returns σ s m thr stipple mask Hs Hm Hshape)|].
  cbn [stdout]. split; [reflexivity|].
  unfold well_formed in *.
  assert (size mask = length (data stipple)) as ->.
  { rewrite Hws. unfold size. rewrite Hshape. reflexivity. }
  unfold masked, setitem_where, equal, less. cbn [shape data].
  apply count_disjoint. rewrite length_fmap, Hwm, Hws. unfold size.
  rewrite Hshape. reflexivity.
Qed.

(** Every cell of the result is 1.0 or the stipple cell it came from. *)
Lemma masked_cell_cases stipple mask thr (i : nat) (v : float) :
  data (masked stipple mask thr) !! i = Some v →
  v = 1%float ∨ data stipple !! i = Some v.
Proof.
  rewrite masked_lookup.
  destruct (data stipple !! i) as [sv|]; [cbn|discriminate].
  destruct (data mask !! i) as [mv|];
    [destruct (cast (dtype mask) mv <? cast (dtype mask) thr)%float|];
    intros [= <-]; auto.
Qed.

(** X3. Masking keeps a raster valid: a stipple field of cells 0.0 or 1.0
    yields a field of cells 0.0 or 1.0, and cells in the closed interval from
    0 to 1 yield cells in that interval. *)
Theorem masking_keeps_field_valid σ s m thr stipple mask :
  heap σ !! s = Some stipple →
  heap σ !! m = Some mask →
  shape stipple = shape mask →
  ∃ out σ' result,
    create_masked_stipple s m thr σ = (Returned out, σ') ∧
    heap σ' !! out = Some result ∧
    (Forall (λ v, v = 0%float ∨ v = 1%float) (data stipple) →
     Forall (λ v, v = 0%float ∨ v = 1%float) (data result)) ∧
    (Forall (λ v, (0 <=? v)%float = true ∧ (v <=? 1)%float = true) (data stipple) →
     Forall (λ v, (0 <=? v)%float = true ∧ (v <=? 1)%float = true) (data result)).
Proof.
  intros Hs Hm Hshape.
  eexists _, _, (masked stipple mask thr).
  split; [apply (create_masked_stipple_returns σ s m thr stipple mask Hs Hm Hshape)|].
  cbn [heap]. rewrite lookup_insert_eq. split; [reflexivity|].
  split; intros Hall; apply Forall_lookup; intros i v Hv;
    destruct (masked_cell_cases stipple mask thr i v Hv) as [->|Hsv].
  - right. reflexivity.
  - apply (Forall_lookup_1 _ _ _ _ Hall Hsv).
  - split; reflexivity.
  - apply (Forall_lookup_1 _ _ _ _ Hall Hsv).
Qed.

(** No mask cell below the threshold: the result is a copy of the stipple
    raster. *)
Lemma masked_nothing stipple mask thr :
  Forall (λ mv, (cast (dtype mask) mv <? cast (dtype mask) thr)%float = false)
         (data mask) →
  masked stipple mask thr = NdArray (dtype stipple) (shape stipple) (data stipple).
Proof.
  intros Hall. apply ndarray_eq; [reflexivity|reflexivity|]. cbn [data].
  apply list_eq. intros i. rewrite masked_lookup.
  destruct (data stipple !! i) as [sv|]; [cbn|reflexivity].
  destruct (data mask !! i) as [mv|] eqn:Hmv; [|reflexivity].
  rewrite (Forall_lookup_1 _ _ _ _ Hall Hmv). reflexivity.
Qed.

Lemma np_sum_none (t : np_type) (s : list nat) (bs : list bool) :
  Forall (λ b, b = false) bs → np_sum (NdArray t s bs) = 0%nat.
Proof.
  intros H. induction H as [|b bs Hb _ IH]; [reflexivity|].
  subst b. rewrite np_sum_cons, IH. reflexivity.
Qed.

(** X4. A NaN threshold masks nothing: the result is a copy of the stipple
    raster and the report counts 0 masked pixels. *)
Theorem nan_threshold_masks_nothing σ s m stipple mask :
  heap σ !! s = Some stipple →
  heap σ !! m = Some mask →
  shape stipple = shape mask →
  ∃ out σ',
    create_masked_stipple s m nan σ = (Returned out, σ') ∧
    heap σ' !! out = Some (NdArray (dtype stipple) (shape stipple) (data stipple)) ∧
    stdout σ' = stdout σ ++ [AppliedMask;
                             MaskedAreas 0 (size mask);
                             RemainingStipples (stipple_count stipple)].
Proof.
  intros Hs Hm Hshape.
  assert (Forall (λ mv, (cast (dtype mask) mv <? cast (dtype mask) nan)%float = false)
                 (data mask)) as Hall.
  { apply Forall_forall. intros mv _. rewrite cast_nan. apply ltb_nan. }
  eexists _, _.
  split; [apply (create_masked_stipple_returns σ s m nan stipple mask Hs Hm Hshape)|].
  cbn [heap stdout]. rewrite lookup_insert_eq.
  assert (np_sum (less mask nan) = 0%nat) as Hnone.
  { apply np_sum_none. unfold less. cbn [data]. apply Forall_fmap. exact Hall. }
  unfold masker_report. rewrite (masked_nothing stipple mask nan Hall), Hnone.
  split; reflexivity.
Qed.

(** X5. When every mask cell is at or above the threshold the result is a
    copy of the stipple raster, in a new object. *)
Theorem unmasked_cells_copy σ s m thr stipple mask :
  heap σ !! s = Some stipple →
  heap σ !! m = Some mask →
  shape stipple = shape mask →
  Forall (λ mv, (thr <=? mv)%float = true) (data mask) →
  ∃ out σ',
    create_masked_stipple s m thr σ = (Returned out, σ') ∧
    heap σ' !! out = Some (NdArray (dtype stipple) (shape stipple) (data stipple)) ∧
    out ≠ s.
Proof.
  intros Hs Hm Hshape Hall.
  eexists _, _.
  split; [apply (create_masked_stipple_returns σ s m thr stipple mask Hs Hm Hshape)|].
  cbn [heap]. rewrite lookup_insert_eq. split; [|eapply fresh_differs, Hs].
  f_equal. apply masked_nothing.
  eapply Forall_impl; [exact Hall|]. intros mv Hle.
  apply leb_ltb_false, cast_monotone, Hle.
Qed.

(** Two maskings in a row, the second applied to the result of the first. *)
Lemma masked_twice σ s m1 m2 t1 t2 stipple mask1 mask2 :
  heap σ !! s = Some stipple →
  heap σ !! m1 = Some mask1 →
  heap σ !! m2 = Some mask2 →
  shape stipple = shape mask1 →
  shape stipple = shape mask2 →
  ∃ first σ1 second σ2,
    create_masked_stipple s m1 t1 σ = (Returned first, σ1) ∧
    create_masked_stipple first m2 t2 σ1 = (Returned second, σ2) ∧
    heap σ2 !! second = Some (masked (masked stipple mask1 t1) mask2 t2) ∧
    heap σ2 !! s = Some stipple.
Proof.
  intros Hs Hm1 Hm2 Hs1 Hs2.
  pose proof (create_masked_stipple_returns σ s m1 t1 stipple mask1 Hs Hm1 Hs1) as H1.
  set (first := fresh (dom (heap σ))) in *.
  set (σ1 := World (<[first := masked stipple mask1 t1]> (heap σ))
                   (stdout σ ++ masker_report stipple mask1 t1)) in *.
  assert (heap σ1 !! first = Some (masked stipple mask1 t1)) as Hf
    by (cbn [heap σ1]; apply lookup_insert_eq).
  assert (∀ l a, heap σ !! l = Some a → heap σ1 !! l = Some a) as Hkeep.
  { intros l a Hl. cbn [heap σ1]. rewrite lookup_insert_ne; [exact Hl|].
    eapply fresh_differs, Hl. }
  pose proof (create_masked_stipple_returns σ1 first m2 t2 _ mask2 Hf
                (Hkeep _ _ Hm2) Hs2) as H2.
  eexists first, σ1, _, _. split; [exact H1|]. split; [exact H2|].
  cbn [heap]. rewrite lookup_insert_eq. split; [reflexivity|].
  rewrite lookup_insert_ne; [apply Hkeep, Hs|].
  eapply fresh_differs, Hkeep, Hs.
Qed.

Lemma masked_commute stipple mask1 mask2 t1 t2 :
  masked (masked stipple mask1 t1) mask2 t2
  = masked (masked stipple mask2 t2) mask1 t1.
Proof.
  apply ndarray_eq; [reflexivity|reflexivity|].
  apply list_eq. intros i. rewrite !masked_lookup.
  destruct (data stipple !! i) as [sv|]; [cbn|reflexivity].
  destruct (data mask1 !! i) as [v1|], (data mask2 !! i) as [v2|]; try reflexivity.
  destruct (cast (dtype mask1) v1 <? cast (dtype mask1) t1)%float,
           (cast (dtype mask2) v2 <? cast (dtype mask2) t2)%float; reflexivity.
Qed.

(** X6. Two masks of the stipple raster's shape can be applied in either
    order: both orders end in equal rasters. *)
Theorem masks_commute σ s m1 m2 t1 t2 stipple mask1 mask2 :
  heap σ !! s = Some stipple →
  heap σ !! m1 = Some mask1 →
  heap σ !! m2 = Some mask2 →
  shape stipple = shape mask1 →
  shape stipple = shape mask2 →
  ∃ a σa ab σab b σb ba σba result,
    create_masked_stipple s m1 t1 σ = (Returned a, σa) ∧
    create_masked_stipple a m2 t2 σa = (Returned ab, σab) ∧
    create_masked_stipple s m2 t2 σ = (Returned b, σb) ∧
    create_masked_stipple b m1 t1 σb = (Returned ba, σba) ∧
    heap σab !! ab = Some result ∧
    heap σba !! ba = Some result.
Proof.
  intros Hs Hm1 Hm2 Hs1 Hs2.
  destruct (masked_twice σ s m1 m2 t1 t2 stipple mask1 mask2 Hs Hm1 Hm2 Hs1 Hs2)
    as (a & σa & ab & σab & Ha & Hab & Hrab & _).
  destruct (masked_twice σ s m2 m1 t2 t1 stipple mask2 mask1 Hs Hm2 Hm1 Hs2 Hs1)
    as (b & σb & ba & σba & Hb & Hba & Hrba & _).
  exists a, σa, ab, σab, b, σb, ba, σba, (masked (masked stipple mask1 t1) mask2 t2).
  repeat split; try assumption. rewrite masked_commute. exact Hrba.
Qed.

Lemma masked_absorb stipple mask t1 t2 :
  (t1 <=? t2)%float = true →
  masked (masked stipple mask t1) mask t2 = masked stipple mask t2.
Proof.
  intros Hle. apply (cast_monotone (dtype mask)) in Hle.
  apply ndarray_eq; [reflexivity|reflexivity|].
  apply list_eq. intros i. rewrite !masked_lookup.
  destruct (data stipple !! i) as [sv|]; [cbn|reflexivity].
  destruct (data mask !! i) as [mv|]; [|reflexivity].
  destruct (cast (dtype mask) mv <? cast (dtype mask) t1)%float eqn:H1; [|reflexivity].
  rewrite (ltb_leb_trans _ _ _ H1 Hle). reflexivity.
Qed.

(** X7. Raising the threshold only masks more: masking at [t1] and then at
    [t2 >= t1] with the same mask gives the raster masking at [t2] gives, and
    the masked pixel count at [t1] is at most the one at [t2]. *)
Theorem larger_threshold_absorbs σ s m t1 t2 stipple mask :
  heap σ !! s = Some stipple →
  heap σ !! m = Some mask →
  shape stipple = shape mask →
  (t1 <=? t2)%float = true →
  ∃ first σ1 second σ2 direct σd result,
    create_masked_stipple s m t1 σ = (Returned first, σ1) ∧
    create_masked_stipple first m t2 σ1 = (Returned second, σ2) ∧
    create_masked_stipple s m t2 σ = (Returned direct, σd) ∧
    heap σ2 !! second = Some result ∧
    heap σd !! direct = Some result ∧
    (np_sum (less mask t1) <= np_sum (less mask t2))%nat.
Proof.
  intros Hs Hm Hshape Hle.
  destruct (masked_twice σ s m m t1 t2 stipple mask mask Hs Hm Hm Hshape Hshape)
    as (first & σ1 & second & σ2 & H1 & H2 & Hr & _).
  pose proof (create_masked_stipple_returns σ s m t2 stipple mask Hs Hm Hshape) as Hd.
  eexists first, σ1, second, σ2, _, _, (masked stipple mask t2).
  split; [exact H1|]. split; [exact H2|]. split; [exact Hd|].
  rewrite masked_absorb in Hr by exact Hle. split; [exact Hr|].
  cbn [heap]. split; [apply lookup_insert_eq|].
  apply (cast_monotone (dtype mask)) in Hle.
  unfold less, np_sum. cbn [data].
  induction (data mask) as [|mv l IH]; [reflexivity|].
  cbn [fmap list_fmap]. rewrite !filter_cons.
  destruct (cast (dtype mask) mv <? cast (dtype mask) t1)%float eqn:Hlt.
  - rewrite (ltb_leb_trans _ _ _ Hlt Hle). rewrite !decide_True by reflexivity.
    cbn [length]. cbn [fmap list_fmap] in IH. lia.
  - rewrite decide_False by discriminate. cbn [fmap list_fmap] in IH.
    destruct (decide ((cast (dtype mask) mv <? cast (dtype mask) t2)%float = true));
      cbn [length]; lia.
Qed.

(** * More on [create_block_letter_s] *)

(** [float(n)] of a positive dimension is a positive finite float. *)
Lemma float_of_int_positive (n : Z) :
  0 < n < 2 ^ 31 →
  ∃ x m e, float_of_int n = inr x ∧ Prim2SF x = S754_finite false m e.
Proof.
  intros Hn. unfold float_of_int. destruct n as [|p|p]; try lia.
  pose proof (digits2_pos_bound p 31 ltac:(lia) ltac:(lia)) as Hd.
  rewrite binary_normalize_exact by lia.
  set (d := digits2_pos p) in *.
  set (m := Pos.iter xO p (Z.to_pos (53 - Z.pos d))).
  assert (Z.pos (digits2_pos m) = 53) as Hdm.
  { unfold m. rewrite digits2_pos_iter_xO. fold d. lia. }
  eexists _, m, (Z.pos d - 53). split; [reflexivity|].
  apply Prim2SF_SF2Prim. cbn [SpecFloat.valid_binary].
  unfold bounded, canonical_mantissa. rewrite Hdm.
  unfold fexp, SpecFloat.emin, prec, emax.
  apply andb_true_intro. split; [apply Z.eqb_eq|apply Z.leb_le]; lia.
Qed.

(** X8. A size ratio that is NaN or infinite makes [create_block_letter_s]
    raise for valid dimensions, whatever fonts the machine has: [int] of the
    product fails with [ValueError], respectively [OverflowError], before any
    font is looked up, and the state is left as it was. *)
Theorem bad_ratio_raises (P : pillow) (height width : Z) (letter : string) σ :
  valid_dimension height → valid_dimension width →
  create_block_letter_s P height width letter nan σ
    = (Raised (ValueError "cannot convert float NaN to integer"), σ) ∧
  create_block_letter_s P height width letter infinity σ
    = (Raised (OverflowError "cannot convert float infinity to integer"), σ).
Proof.
  unfold valid_dimension. intros Hh Hw.
  destruct (float_of_int_positive height Hh) as (a & m & e & Ha & Hfin).
  split.
  - unfold create_block_letter_s.
    rewrite (bind_returned _ _ _ _ _ (Image_new_returns width height Byte.xff σ
               ltac:(lia) ltac:(lia))).
    erewrite bind_raised; [reflexivity|].
    unfold font_size_of, mul_int_float. rewrite Ha. cbn.
    unfold mbind, py_bind, mret, py_ret, int_of_float.
    rewrite mul_spec, Hfin. reflexivity.
  - unfold create_block_letter_s.
    rewrite (bind_returned _ _ _ _ _ (Image_new_returns width height Byte.xff σ
               ltac:(lia) ltac:(lia))).
    erewrite bind_raised; [reflexivity|].
    unfold font_size_of, mul_int_float. rewrite Ha. cbn.
    unfold mbind, py_bind, mret, py_ret, int_of_float.
    rewrite mul_spec, Hfin. reflexivity.
Qed.

(** The loop stops at the first path that exists and loads. *)
Lemma find_font_first (P : pillow) (paths : list string) (font_size : Z)
    (font_path : string) (f : font P) :
  find_font P paths font_size = Some (font_path, f) →
  ∃ before after,
    paths = before ++ font_path :: after ∧
    Forall (λ q, path_exists P q = false ∨
                 truetype P q font_size
                          (if endswith q ".ttc" then Some 0 else None) = None) before.
Proof.
  induction paths as [|p rest IH]; cbn [find_font]; [discriminate|].
  destruct (path_exists P p) eqn:Hex.
  - destruct (truetype P p font_size _) as [g|] eqn:Htt.
    + intros [= <- <-]. exists [], rest. split; [reflexivity|constructor].
    + intros H. destruct (IH H) as (before & after & -> & Hall).
      exists (p :: before), after. split; [reflexivity|].
      constructor; [right; exact Htt|exact Hall].
  - intros H. destruct (IH H) as (before & after & -> & Hall).
    exists (p :: before), after. split; [reflexivity|].
    constructor; [left; exact Hex|exact Hall].
Qed.

(** X9. The font named in the "Using font" line is the first path of
    [font_paths] that exists and loads at the computed size: every path before
    it is absent or failed to load. *)
Theorem first_loadable_font_wins (P : pillow) (height width : Z) (letter : string)
    (font_size_ratio : float) σ :
  valid_dimension height → valid_dimension width →
  (0 <=? font_size_ratio)%float = true → (font_size_ratio <=? 1)%float = true →
  ∃ mask_ref σ' font_size,
    create_block_letter_s P height width letter font_size_ratio σ
      = (Returned mask_ref, σ') ∧
    font_size_of height font_size_ratio σ = (Returned font_size, σ) ∧
    ∀ font_path rest,
      stdout σ' = stdout σ ++ UsingFont font_path :: rest →
      ∃ before after,
        font_paths = before ++ font_path :: after ∧
        path_exists P font_path = true ∧
        truetype P font_path font_size
                 (if endswith font_path ".ttc" then Some 0 else None) ≠ None ∧
        Forall (λ q, path_exists P q = false ∨
                     truetype P q font_size
                              (if endswith q ".ttc" then Some 0 else None) = None)
               before.
Proof.
  intros Hh Hw H0 H1.
  destruct (create_block_letter_s_returns P height width letter font_size_ratio σ
              Hh Hw H0 H1) as (z & drawn & Hz & _ & Hrun).
  eexists _, _, z. split; [exact Hrun|]. split; [exact Hz|].
  cbn [stdout]. intros font_path rest Hout. apply app_inv_head in Hout.
  unfold glyph_report in Hout.
  destruct (find_font P font_paths z) as [[p f]|] eqn:Hfind.
  - injection Hout as -> _.
    destruct (find_font_some P font_paths z font_path f Hfind) as (_ & Hex & Htt).
    destruct (find_font_first P font_paths z font_path f Hfind)
      as (before & after & Heq & Hall).
    exists before, after. repeat split; try assumption. rewrite Htt. discriminate.
  - destruct (load_default P); discriminate.
Qed.

(** X10. [create_block_letter_s] returns a new array object and touches no
    other: its reference was not allocated before, every array alive at the
    call is unchanged, the heap grows by that one object, and what was printed
    before stays, followed by the run's own lines. *)
Theorem glyph_is_new_object (P : pillow) (height width : Z) (letter : string)
    (font_size_ratio : float) σ :
  valid_dimension height → valid_dimension width →
  (0 <=? font_size_ratio)%float = true → (font_size_ratio <=? 1)%float = true →
  ∃ mask_ref σ',
    create_block_letter_s P height width letter font_size_ratio σ
      = (Returned mask_ref, σ') ∧
    heap σ !! mask_ref = None ∧
    (∀ l a, heap σ !! l = Some a → heap σ' !! l = Some a) ∧
    dom (heap σ') = {[mask_ref]} ∪ dom (heap σ) ∧
    ∃ printed, stdout σ' = stdout σ ++ printed.
Proof.
  intros Hh Hw H0 H1.
  destruct (create_block_letter_s_returns P height width letter font_size_ratio σ
              Hh Hw H0 H1) as (z & drawn & _ & _ & Hrun).
  eexists _, _. split; [exact Hrun|]. cbn [heap stdout].
  split; [apply fresh_not_allocated|].
  split; [|split; [apply dom_insert_L|eauto]].
  intros l a Hl. rewrite lookup_insert_ne; [exact Hl|]. eapply fresh_differs, Hl.
Qed.

(** X11. The two steps compose: a mask generated for [(height, width)]
    applied to any stipple raster of that shape never fails the shape test;
    the result has that shape and the stipple raster is unchanged. *)
Theorem generated_mask_fits (P : pillow) (height width : Z) (letter : string)
    (font_size_ratio threshold : float) σ (stipple_ref : positive) stipple :
  valid_dimension height → valid_dimension width →
  (0 <=? font_size_ratio)%float = true → (font_size_ratio <=? 1)%float = true →
  heap σ !! stipple_ref = Some stipple →
  shape stipple = [Z.to_nat height; Z.to_nat width] →
  ∃ mask_ref σ1 out σ2 result,
    create_block_letter_s P height width letter font_size_ratio σ
      = (Returned mask_ref, σ1) ∧
    create_masked_stipple stipple_ref mask_ref threshold σ1 = (Returned out, σ2) ∧
    heap σ2 !! out = Some result ∧
    shape result = [Z.to_nat height; Z.to_nat width] ∧
    heap σ2 !! stipple_ref = Some stipple.
Proof.
  intros Hh Hw H0 H1 Hs Hshape.
  destruct (create_block_letter_s_returns P height width letter font_size_ratio σ
              Hh Hw H0 H1) as (z & drawn & _ & Hc & Hrun).
  destruct (array_of_image_canvas height width drawn Hc) as [Hms _].
  set (mask_ref := fresh (dom (heap σ))) in *.
  set (σ1 := World (<[mask_ref := array_of_image drawn]> (heap σ))
                   (stdout σ ++ glyph_report P z letter height width)) in *.
  assert (heap σ1 !! mask_ref = Some (array_of_image drawn)) as Hm
    by apply lookup_insert_eq.
  assert (heap σ1 !! stipple_ref = Some stipple) as Hs1.
  { cbn [heap σ1]. rewrite lookup_insert_ne; [exact Hs|]. eapply fresh_differs, Hs. }
  pose proof (create_masked_stipple_returns σ1 stipple_ref mask_ref threshold stipple
                _ Hs1 Hm ltac:(congruence)) as Hrun2.
  eexists mask_ref, σ1, _, _, _. split; [exact Hrun|]. split; [exact Hrun2|].
  cbn [heap]. rewrite lookup_insert_eq. split; [reflexivity|].
  split; [exact Hshape|].
  rewrite lookup_insert_ne; [exact Hs1|]. eapply fresh_differs, Hs1.
Qed.

(** The 256 grey levels: [k / 255] is 1.0 only for 255, 0.0 only for 0, and
    below 0.5 exactly up to 127. *)
Lemma unit_of_byte_levels (b : Byte.byte) :
  (unit_of_byte b <? default_threshold)%float = (Byte.to_N b <=? 127)%N ∧
  (unit_of_byte b =? 1)%float = (Byte.to_N b =? 255)%N ∧
  (unit_of_byte b =? 0)%float = (Byte.to_N b =? 0)%N.
Proof. destruct b; vm_compute; repeat split; reflexivity. Qed.

(** X12. Every cell of a generated mask is one of the 256 float32 quotients
    [k / 255] of a byte [k]: it equals 1.0 only for [k = 255], 0.0 only for
    [k = 0], and is below the default threshold 0.5 exactly for [k <= 127]. *)
Theorem mask_cells_are_grey_levels (P : pillow) (height width : Z) (letter : string)
    (font_size_ratio : float) σ :
  valid_dimension height → valid_dimension width →
  (0 <=? font_size_ratio)%float = true → (font_size_ratio <=? 1)%float = true →
  ∃ mask_ref σ' mask,
    create_block_letter_s P height width letter font_size_ratio σ
      = (Returned mask_ref, σ') ∧
    heap σ' !! mask_ref = Some mask ∧
    ∀ (i : nat) v, data mask !! i = Some v →
      ∃ b, v = unit_of_byte b ∧
           (v <? default_threshold)%float = (Byte.to_N b <=? 127)%N ∧
           (v =? 1)%float = (Byte.to_N b =? 255)%N ∧
           (v =? 0)%float = (Byte.to_N b =? 0)%N.
Proof.
  intros Hh Hw H0 H1.
  destruct (create_block_letter_s_returns P height width letter font_size_ratio σ
              Hh Hw H0 H1) as (z & drawn & _ & _ & Hrun).
  eexists _, _, (array_of_image drawn). split; [exact Hrun|].
  cbn [heap]. rewrite lookup_insert_eq. split; [reflexivity|].
  intros i v. unfold array_of_image. cbn [data]. rewrite list_lookup_fmap.
  destruct (im_pixels drawn !! i) as [b|]; [|discriminate].
  cbn. intros [= <-]. exists b. split; [reflexivity|]. apply unit_of_byte_levels.
Qed.

Lemma byte_listed (b : Byte.byte) : Byte.to_N b ∈ (N.of_nat <$> seq 0 256).
Proof.
  apply list_elem_of_fmap. exists (N.to_nat (Byte.to_N b)).
  split; [lia|]. apply list_elem_of_In, in_seq.
  pose proof (Byte.to_N_bounded b). lia.
Qed.

(** Normalising keeps the order of the grey levels. *)
Lemma unit_of_byte_monotone (b1 b2 : Byte.byte) :
  (unit_of_byte b1 <=? unit_of_byte b2)%float = (Byte.to_N b1 <=? Byte.to_N b2)%N.
Proof.
  assert (forallb (λ i, forallb (λ j,
            match Byte.of_N i, Byte.of_N j with
            | Some c1, Some c2 =>
                Bool.eqb (unit_of_byte c1 <=? unit_of_byte c2)%float (i <=? j)%N
            | _, _ => true
            end) (N.of_nat <$> seq 0 256)) (N.of_nat <$> seq 0 256) = true) as Hall
    by (vm_compute; reflexivity).
  rewrite forallb_forall in Hall.
  specialize (Hall _ (proj1 (list_elem_of_In _ _) (byte_listed b1))).
  rewrite forallb_forall in Hall.
  specialize (Hall _ (proj1 (list_elem_of_In _ _) (byte_listed b2))).
  rewrite !Byte.of_to_N in Hall. apply Bool.eqb_prop in Hall. exact Hall.
Qed.

(** [x <= y < z] gives [x < z]. *)
Lemma leb_ltb_trans (x y z : float) :
  (x <=? y)%float = true → (y <? z)%float = true → (x <? z)%float = true.
Proof.
  intros Hxy Hyz.
  destruct (leb_not_nan x y Hxy) as [Hx _]. destruct (ltb_not_nan y z Hyz) as [_ Hz].
  apply key_ltb; try assumption.
  pose proof (leb_key x y Hxy) as H1. pose proof (ltb_key y z Hyz) as H2.
  destruct (order_key (Prim2SF x)) as [[a1 b1] c1],
           (order_key (Prim2SF y)) as [[a2 b2] c2],
           (order_key (Prim2SF z)) as [[a3 b3] c3]; cbn in *.
  destruct H1 as [H1|H1]; [lia|]. injection H1 as <- <- <-. lia.
Qed.

(** X13. Converting the canvas to [k / 255] keeps the order of the grey
    levels, so at any threshold a pixel no lighter than a masked pixel is
    masked too. *)
Theorem darker_pixels_masked_first (img : image) (threshold : float)
    (i j : nat) (bi bj : Byte.byte) :
  im_pixels img !! i = Some bi →
  im_pixels img !! j = Some bj →
  (Byte.to_N bi <= Byte.to_N bj)%N →
  data (less (array_of_image img) threshold) !! j = Some true →
  data (less (array_of_image img) threshold) !! i = Some true.
Proof.
  intros Hi Hj Hle. rewrite less_array_of_image. unfold array_of_image. cbn [data].
  rewrite !list_lookup_fmap, Hi, Hj. cbn. intros [= Hbelow]. f_equal.
  eapply leb_ltb_trans; [|exact Hbelow].
  rewrite unit_of_byte_monotone. apply N.leb_le. exact Hle.
Qed.

(** X14. When a font file loads and [textbbox] gives integers, the letter is
    drawn on the white canvas at the offsets [x, y] that centre the box to
    within one pixel: [2x <= width - text_width <= 2x + 1], likewise for [y],
    floor division also when the text is wider than the canvas. *)
Theorem letter_is_centred (P : pillow) (height width : Z) (letter : string)
    (font_size_ratio : float) σ (font_size : Z) (font_path : string) (f : font P)
    (x_min y_min x_max y_max : Z) :
  valid_dimension height → valid_dimension width →
  font_size_of height font_size_ratio σ = (Returned font_size, σ) →
  find_font P font_paths font_size = Some (font_path, f) →
  textbbox P f letter = Some (PyInt x_min, PyInt y_min, PyInt x_max, PyInt y_max) →
  ∃ x y mask_ref σ',
    create_block_letter_s P height width letter font_size_ratio σ
      = (Returned mask_ref, σ') ∧
    heap σ' !! mask_ref =
      Some (array_of_image
              (redraw (Image (Z.to_nat width) (Z.to_nat height)
                             (replicate (Z.to_nat height * Z.to_nat width) Byte.xff))
                      (text_pixel P (PyInt x, PyInt y) letter Byte.x00 f))) ∧
    2 * x <= width - (x_max - x_min) <= 2 * x + 1 ∧
    2 * y <= height - (y_max - y_min) <= 2 * y + 1.
Proof.
  unfold valid_dimension. intros Hh Hw Hz Hfind Hbox.
  exists ((width - (x_max - x_min)) / 2), ((height - (y_max - y_min)) / 2).
  eexists _, _. split; [|split].
  - unfold create_block_letter_s.
    rewrite (bind_returned _ _ _ _ _ (Image_new_returns width height Byte.xff σ
               ltac:(lia) ltac:(lia))).
    rewrite (bind_returned _ _ _ _ _ Hz), Hfind.
    erewrite bind_returned by reflexivity.
    unfold draw_letter, text_extent, try_except. rewrite Hbox. reflexivity.
  - cbn [heap]. rewrite lookup_insert_eq. reflexivity.
  - pose proof (Z.div_mod (width - (x_max - x_min)) 2 ltac:(lia)).
    pose proof (Z.mod_pos_bound (width - (x_max - x_min)) 2 ltac:(lia)).
    pose proof (Z.div_mod (height - (y_max - y_min)) 2 ltac:(lia)).
    pose proof (Z.mod_pos_bound (height - (y_max - y_min)) 2 ltac:(lia)).
    lia.
Qed.

Lemma fallback_blank_run (P : pillow) (height width : Z) (letter : string) σ :
  valid_dimension height → valid_dimension width →
  upper letter ≠ "S" →
  _create_simple_block_letter P height width letter σ =
    (Returned (fresh (dom (heap σ))),
     World (<[fresh (dom (heap σ)) :=
                NdArray float32 [Z.to_nat height; Z.to_nat width]
                        (replicate (Z.to_nat height * Z.to_nat width) 1%float)]>
              (heap σ))
           (stdout σ)).
Proof.
  intros Hh Hw Hne.
  destruct (_create_simple_block_letter_returns P height width letter σ Hh Hw)
    as (drawn & (Hdh & Hdw & _) & Hblank & Hrun).
  rewrite Hrun. do 3 f_equal. unfold array_of_image.
  rewrite Hdh, Hdw, Hblank by (apply String.eqb_neq; exact Hne).
  rewrite fmap_replicate. reflexivity.
Qed.

(** X15. On a machine where no font file loads and the default font fails, a
    letter whose upper-case form is not "S" gives, without any error, a mask
    whose every cell is 1.0; only the "drawing primitives" line is printed. *)
Theorem fontless_other_letter_is_blank (P : pillow) (height width : Z)
    (letter : string) (font_size_ratio : float) σ :
  valid_dimension height → valid_dimension width →
  (0 <=? font_size_ratio)%float = true → (font_size_ratio <=? 1)%float = true →
  (∀ font_path, font_path ∈ font_paths →
     path_exists P font_path = false ∨
     ∀ font_size index, truetype P font_path font_size index = None) →
  load_default P = None →
  upper letter ≠ "S" →
  ∃ mask_ref σ',
    create_block_letter_s P height width letter font_size_ratio σ
      = (Returned mask_ref, σ') ∧
    heap σ' !! mask_ref =
      Some (NdArray float32 [Z.to_nat height; Z.to_nat width]
                    (replicate (Z.to_nat height * Z.to_nat width) 1%float)) ∧
    stdout σ' = stdout σ ++ [CreatingWithPrimitives].
Proof.
  intros Hh Hw H0 H1 Hnone Hdef Hne.
  destruct (font_size_of_returns height font_size_ratio σ
              ltac:(unfold valid_dimension in Hh; lia) H0 H1) as (z & Hz & _).
  assert (find_font P font_paths z = None) as Hfind.
  { apply find_font_none. intros q Hq.
    destruct (Hnone q Hq) as [Hex|Htt]; [left; exact Hex|right; apply Htt]. }
  pose proof (fallback_blank_run P height width letter
                (World (heap σ) (stdout σ ++ [CreatingWithPrimitives])) Hh Hw Hne)
    as Hrun.
  eexists _, _. split; [|split].
  - unfold create_block_letter_s.
    rewrite (bind_returned _ _ _ _ _ (Image_new_returns width height Byte.xff σ
               ltac:(unfold valid_dimension in Hw; lia)
               ltac:(unfold valid_dimension in Hh; lia))).
    rewrite (bind_returned _ _ _ _ _ Hz), Hfind, Hdef.
    erewrite bind_returned by reflexivity. exact Hrun.
  - cbn [heap]. apply lookup_insert_eq.
  - reflexivity.
Qed.

(** X16. The mask [create_block_letter_s] returns is a float32 array, so
    the masker compares its cells with the threshold rounded to float32. *)
Theorem generated_mask_compared_in_float32 (P : pillow) (height width : Z)
    (letter : string) (font_size_ratio : float) σ (threshold : float) :
  valid_dimension height → valid_dimension width →
  (0 <=? font_size_ratio)%float = true → (font_size_ratio <=? 1)%float = true →
  ∃ mask_ref σ' mask,
    create_block_letter_s P height width letter font_size_ratio σ
      = (Returned mask_ref, σ') ∧
    heap σ' !! mask_ref = Some mask ∧
    dtype mask = float32 ∧
    data (less mask threshold)
      = (λ v, (v <? to_float32 threshold)%float) <$> data mask.
Proof.
  intros Hh Hw H0 H1.
  destruct (create_block_letter_s_returns P height width letter font_size_ratio σ
              Hh Hw H0 H1) as (z & drawn & _ & _ & Hrun).
  eexists _, _, (array_of_image drawn). split; [exact Hrun|].
  cbn [heap]. rewrite lookup_insert_eq. split; [reflexivity|].
  split; [reflexivity|]. apply less_array_of_image.
Qed.


(** X18. The claim as the spec words it holds when the threshold is a value
    of the mask's dtype and so are the mask's cells (always for a float64
    mask): then a cell is 1.0 exactly when its mask value is strictly below
    the threshold, and the stipple cell otherwise. *)
Theorem exact_threshold_compared_as_written σ s m thr stipple mask :
  heap σ !! s = Some stipple →
  heap σ !! m = Some mask →
  shape stipple = shape mask →
  cast (dtype mask) thr = thr →
  Forall (λ v, cast (dtype mask) v = v) (data mask) →
  ∃ out σ' result,
    create_masked_stipple s m thr σ = (Returned out, σ') ∧
    heap σ' !! out = Some result ∧
    ∀ (i : nat) sv mv,
      data stipple !! i = Some sv →
      data mask !! i = Some mv →
      data result !! i = Some (if (mv <? thr)%float then 1%float else sv).
Proof.
  intros Hs Hm Hshape Hthr Hcells.
  eexists _, _, (masked stipple mask thr).
  split; [apply (create_masked_stipple_returns σ s m thr stipple mask Hs Hm Hshape)|].
  cbn [heap]. rewrite lookup_insert_eq. split; [reflexivity|].
  intros i sv mv Hsv Hmv.
  rewrite masked_lookup, Hsv, Hmv. cbn.
  rewrite Hthr, (Forall_lookup_1 _ _ _ _ Hcells Hmv). reflexivity.
Qed.

(** * The further properties at sample inputs *)

Lemma masking_accounts_for_samples_witness :
  ∃ out σ' result,
    create_masked_stipple 1 2 0.5 sample_world = (Returned out, σ') ∧
    heap σ' !! out = Some result ∧
    stipple_count sample_stipple
      = (stipple_count result + removed_count sample_stipple sample_mask 0.5)%nat ∧
    (stipple_count result <= stipple_count sample_stipple)%nat.
Proof.
  apply (masking_accounts_for_samples sample_world 1 2 0.5 sample_stipple sample_mask);
    reflexivity.
Defined.

Lemma masker_report_consistent_witness :
  ∃ out σ' pixels remaining,
    create_masked_stipple 1 2 0.5 sample_world = (Returned out, σ') ∧
    stdout σ' = stdout sample_world ++ [AppliedMask;
                                        MaskedAreas pixels (size sample_mask);
                                        RemainingStipples remaining] ∧
    (pixels + remaining <= size sample_mask)%nat.
Proof.
  apply (masker_report_consistent sample_world 1 2 0.5 sample_stipple sample_mask);
    reflexivity.
Defined.

Lemma masking_keeps_field_valid_witness :
  ∃ out σ' result,
    create_masked_stipple 1 2 0.5 sample_world = (Returned out, σ') ∧
    heap σ' !! out = Some result ∧
    (Forall (λ v, v = 0%float ∨ v = 1%float) (data sample_stipple) →
     Forall (λ v, v = 0%float ∨ v = 1%float) (data result)) ∧
    (Forall (λ v, (0 <=? v)%float = true ∧ (v <=? 1)%float = true)
            (data sample_stipple) →
     Forall (λ v, (0 <=? v)%float = true ∧ (v <=? 1)%float = true) (data result)).
Proof.
  apply (masking_keeps_field_valid sample_world 1 2 0.5 sample_stipple sample_mask);
    reflexivity.
Defined.

Lemma nan_threshold_masks_nothing_witness :
  ∃ out σ',
    create_masked_stipple 1 2 nan sample_world = (Returned out, σ') ∧
    heap σ' !! out = Some (NdArray (dtype sample_stipple) (shape sample_stipple)
                                   (data sample_stipple)) ∧
    stdout σ' = stdout sample_world
                  ++ [AppliedMask;
                      MaskedAreas 0 (size sample_mask);
                      RemainingStipples (stipple_count sample_stipple)].
Proof.
  apply (nan_threshold_masks_nothing sample_world 1 2 sample_stipple sample_mask);
    reflexivity.
Defined.

Lemma unmasked_cells_copy_witness :
  ∃ out σ',
    create_masked_stipple 1 2 0.5 stray_world = (Returned out, σ') ∧
    heap σ' !! out = Some (NdArray (dtype stray_stipple) (shape stray_stipple)
                                   (data stray_stipple)) ∧
    out ≠ 1%positive.
Proof.
  apply (unmasked_cells_copy stray_world 1 2 0.5 stray_stipple stray_mask);
    [reflexivity | reflexivity | reflexivity | repeat constructor].
Defined.

Lemma masks_commute_witness :
  ∃ a σa ab σab b σb ba σba result,
    create_masked_stipple 1 2 0.5 two_mask_world = (Returned a, σa) ∧
    create_masked_stipple a 3 0.25 σa = (Returned ab, σab) ∧
    create_masked_stipple 1 3 0.25 two_mask_world = (Returned b, σb) ∧
    create_masked_stipple b 2 0.5 σb = (Returned ba, σba) ∧
    heap σab !! ab = Some result ∧
    heap σba !! ba = Some result.
Proof.
  apply (masks_commute two_mask_world 1 2 3 0.5 0.25
           sample_stipple sample_mask second_mask);
    reflexivity.
Defined.

Lemma larger_threshold_absorbs_witness :
  ∃ first σ1 second σ2 direct σd result,
    create_masked_stipple 1 2 0.25 sample_world = (Returned first, σ1) ∧
    create_masked_stipple first 2 0.5 σ1 = (Returned second, σ2) ∧
    create_masked_stipple 1 2 0.5 sample_world = (Returned direct, σd) ∧
    heap σ2 !! second = Some result ∧
    heap σd !! direct = Some result ∧
    (np_sum (less sample_mask 0.25) <= np_sum (less sample_mask 0.5))%nat.
Proof.
  apply (larger_threshold_absorbs sample_world 1 2 0.25 0.5 sample_stipple sample_mask);
    reflexivity.
Defined.

Lemma bad_ratio_raises_witness :
  create_block_letter_s dejavu_pillow 50 50 default_letter nan empty_world
    = (Raised (ValueError "cannot convert float NaN to integer"), empty_world) ∧
  create_block_letter_s dejavu_pillow 50 50 default_letter infinity empty_world
    = (Raised (OverflowError "cannot convert float infinity to integer"), empty_world).
Proof.
  apply (bad_ratio_raises dejavu_pillow 50 50 default_letter empty_world);
    unfold valid_dimension; lia.
Defined.

Lemma first_loadable_font_wins_witness :
  ∃ mask_ref σ' font_size,
    create_block_letter_s dejavu_pillow 50 50 default_letter default_font_size_ratio
                          empty_world = (Returned mask_ref, σ') ∧
    font_size_of 50 default_font_size_ratio empty_world
      = (Returned font_size, empty_world) ∧
    ∀ font_path rest,
      stdout σ' = stdout empty_world ++ UsingFont font_path :: rest →
      ∃ before after,
        font_paths = before ++ font_path :: after ∧
        path_exists dejavu_pillow font_path = true ∧
        truetype dejavu_pillow font_path font_size
                 (if endswith font_path ".ttc" then Some 0 else None) ≠ None ∧
        Forall (λ q, path_exists dejavu_pillow q = false ∨
                     truetype dejavu_pillow q font_size
                              (if endswith q ".ttc" then Some 0 else None) = None)
               before.
Proof.
  apply (first_loadable_font_wins dejavu_pillow 50 50 default_letter
           default_font_size_ratio empty_world);
    unfold valid_dimension; first [reflexivity | lia].
Defined.

Lemma glyph_is_new_object_witness :
  ∃ mask_ref σ',
    create_block_letter_s dejavu_pillow 50 50 default_letter default_font_size_ratio
                          full_world = (Returned mask_ref, σ') ∧
    heap full_world !! mask_ref = None ∧
    (∀ l a, heap full_world !! l = Some a → heap σ' !! l = Some a) ∧
    dom (heap σ') = {[mask_ref]} ∪ dom (heap full_world) ∧
    ∃ printed, stdout σ' = stdout full_world ++ printed.
Proof.
  apply (glyph_is_new_object dejavu_pillow 50 50 default_letter
           default_font_size_ratio full_world);
    unfold valid_dimension; first [reflexivity | lia].
Defined.

Lemma generated_mask_fits_witness :
  ∃ mask_ref σ1 out σ2 result,
    create_block_letter_s dejavu_pillow 50 50 default_letter default_font_size_ratio
                          full_world = (Returned mask_ref, σ1) ∧
    create_masked_stipple 1 mask_ref default_threshold σ1 = (Returned out, σ2) ∧
    heap σ2 !! out = Some result ∧
    shape result = [Z.to_nat 50; Z.to_nat 50] ∧
    heap σ2 !! 1%positive = Some full_stipple.
Proof.
  apply (generated_mask_fits dejavu_pillow 50 50 default_letter
           default_font_size_ratio default_threshold full_world 1 full_stipple);
    unfold valid_dimension; first [reflexivity | lia].
Defined.

Lemma mask_cells_are_grey_levels_witness :
  ∃ mask_ref σ' mask,
    create_block_letter_s dejavu_pillow 50 50 default_letter default_font_size_ratio
                          empty_world = (Returned mask_ref, σ') ∧
    heap σ' !! mask_ref = Some mask ∧
    ∀ (i : nat) v, data mask !! i = Some v →
      ∃ b, v = unit_of_byte b ∧
           (v <? default_threshold)%float = (Byte.to_N b <=? 127)%N ∧
           (v =? 1)%float = (Byte.to_N b =? 255)%N ∧
           (v =? 0)%float = (Byte.to_N b =? 0)%N.
Proof.
  apply (mask_cells_are_grey_levels dejavu_pillow 50 50 default_letter
           default_font_size_ratio empty_world);
    unfold valid_dimension; first [reflexivity | lia].
Defined.

Lemma darker_pixels_masked_first_witness :
  data (less (array_of_image two_pixel_image) 0.5) !! 0%nat = Some true.
Proof.
  apply (darker_pixels_masked_first two_pixel_image 0.5 0 1 Byte.x00 Byte.x40);
    first [reflexivity | cbn; lia].
Defined.

Lemma letter_is_centred_witness :
  ∃ x y mask_ref σ',
    create_block_letter_s dejavu_pillow 50 50 default_letter default_font_size_ratio
                          empty_world = (Returned mask_ref, σ') ∧
    heap σ' !! mask_ref =
      Some (array_of_image
              (redraw (Image (Z.to_nat 50) (Z.to_nat 50)
                             (replicate (Z.to_nat 50 * Z.to_nat 50) Byte.xff))
                      (text_pixel dejavu_pillow (PyInt x, PyInt y) default_letter
                                  Byte.x00 ()))) ∧
    2 * x <= 50 - (30 - 0) <= 2 * x + 1 ∧
    2 * y <= 50 - (33 - 0) <= 2 * y + 1.
Proof.
  apply (letter_is_centred dejavu_pillow 50 50 default_letter default_font_size_ratio
           empty_world 45 "/usr/share/fonts/truetype/dejavu/DejaVuSans-Bold.ttf" ()
           0 0 30 33);
    unfold valid_dimension; first [reflexivity | lia].
Defined.

Lemma fontless_other_letter_is_blank_witness :
  ∃ mask_ref σ',
    create_block_letter_s bare_pillow 3 4 "x" default_font_size_ratio empty_world
      = (Returned mask_ref, σ') ∧
    heap σ' !! mask_ref =
      Some (NdArray float32 [Z.to_nat 3; Z.to_nat 4]
                    (replicate (Z.to_nat 3 * Z.to_nat 4) 1%float)) ∧
    stdout σ' = stdout empty_world ++ [CreatingWithPrimitives].
Proof.
  apply (fontless_other_letter_is_blank bare_pillow 3 4 "x" default_font_size_ratio
           empty_world);
    unfold valid_dimension;
    first [reflexivity | lia | discriminate | intros; left; reflexivity].
Defined.

Lemma generated_mask_compared_in_float32_witness :
  ∃ mask_ref σ' mask,
    create_block_letter_s dejavu_pillow 50 50 default_letter default_font_size_ratio
                          empty_world = (Returned mask_ref, σ') ∧
    heap σ' !! mask_ref = Some mask ∧
    dtype mask = float32 ∧
    data (less mask gap_threshold)
      = (λ v, (v <? to_float32 gap_threshold)%float) <$> data mask.
Proof.
  apply (generated_mask_compared_in_float32 dejavu_pillow 50 50 default_letter
           default_font_size_ratio empty_world gap_threshold);
    unfold valid_dimension; first [reflexivity | lia].
Defined.


Lemma exact_threshold_compared_as_written_witness :
  ∃ out σ' result,
    create_masked_stipple 1 2 0.5 sample_world = (Returned out, σ') ∧
    heap σ' !! out = Some result ∧
    ∀ (i : nat) sv mv,
      data sample_stipple !! i = Some sv →
      data sample_mask !! i = Some mv →
      data result !! i = Some (if (mv <? 0.5)%float then 1%float else sv).
Proof.
  apply (exact_threshold_compared_as_written sample_world 1 2 0.5 sample_stipple
           sample_mask); try reflexivity.
  repeat constructor.
Defined.
